(** * The interactive-fiction example of mecs ([if.py])

    A shallow embedding of the world-mutation helpers ([maplink], [move],
    [listjoin], [findByName]), of the components and of the command system
    of [if.py], with the properties of the world model and of the command
    interpreter stated and proved over it.

    Conventions of the embedding:
    - an entity id is a [nat]; the scene is the list of the entities'
      component records, indexed by entity id;
    - a Python [str] is a [string] of ASCII characters; [str.lower] maps
      [A]-[Z] to [a]-[z] and leaves every other character alone;
    - a Python [list] is a [list], a [dict] is an association list in
      insertion order (the order [keys()] iterates in);
    - a function that may raise returns a [result]: [Ok v] when it returns
      [v], [Raise e] when the exception [e] escapes it;
    - a function that mutates the scene takes the scene and returns the
      scene it leaves behind. *)

From Stdlib Require Import String Ascii.
From stdpp Require Import base option list strings.

Local Open Scope string_scope.
Local Open Scope nat_scope.
Local Open Scope list_scope.
Local Open Scope stdpp_scope.

(** ** Exceptions and results *)

Inductive exn : Set :=
| AssertionError
| ValueError
| KeyError
| EOFError.

Inductive result (A : Type) : Type :=
| Ok (a : A)
| Raise (e : exn).

Arguments Ok {A} a.
Arguments Raise {A} e.

#[global] Instance result_ret : MRet result := fun A a => Ok a.
#[global] Instance result_bind : MBind result := fun A B f m =>
  match m with
  | Ok a => f a
  | Raise e => Raise e
  end.

(** [assert cond] *)
Definition assert (cond : bool) : result unit :=
  if cond then Ok () else Raise AssertionError.

(** A list comprehension whose element expression may raise. *)
Fixpoint mapR {A B : Type} (f : A -> result B) (l : list A) : result (list B) :=
  match l with
  | [] => Ok []
  | x :: l' => y ← f x; ys ← mapR f l'; Ok (y :: ys)
  end.

(** ** Strings *)

Module Str.

Definition nl : string := String "010" EmptyString.

Definition is_upper (c : ascii) : bool :=
  let n := nat_of_ascii c in ((65 <=? n) && (n <=? 90))%nat.

Definition lower_ascii (c : ascii) : ascii :=
  if is_upper c then ascii_of_nat (nat_of_ascii c + 32) else c.

(** [s.lower()] *)
Fixpoint lower (s : string) : string :=
  match s with
  | EmptyString => EmptyString
  | String c s' => String (lower_ascii c) (lower s')
  end.

(** The ASCII characters [str.isspace] accepts: tab, line feed, vertical
    tab, form feed, carriage return, the four separators 28-31, space. *)
Definition is_space (c : ascii) : bool :=
  let n := nat_of_ascii c in
  (((9 <=? n) && (n <=? 13)) || ((28 <=? n) && (n <=? 32)))%nat.

Fixpoint split_ws_go (s : string) (tok : string) : list string :=
  match s with
  | EmptyString => if decide (tok = "") then [] else [tok]
  | String c s' =>
      if is_space c
      then (if decide (tok = "") then split_ws_go s' ""
            else tok :: split_ws_go s' "")
      else split_ws_go s' (tok +:+ String c "")
  end.

(** [s.split()]: the maximal runs of non-whitespace characters. *)
Definition split (s : string) : list string := split_ws_go s "".

(** [sep.join(l)] *)
Definition join (sep : string) (l : list string) : string :=
  String.concat sep l.

(** [sub in s] *)
Fixpoint contains (sub s : string) : bool :=
  String.prefix sub s ||
  match s with
  | EmptyString => false
  | String _ s' => contains sub s'
  end.

(** [skip] counts the characters of a separator found earlier that are still
    to be passed over; [cur] is the piece being read. *)
Fixpoint split_on_go (sep s : string) (skip : nat) (cur : string) : list string :=
  match s with
  | EmptyString => [cur]
  | String c s' =>
      match skip with
      | S k => split_on_go sep s' k cur
      | O =>
          if String.prefix sep s
          then cur :: split_on_go sep s' (String.length sep - 1) ""
          else split_on_go sep s' 0 (cur +:+ String c "")
      end
  end.

(** [s.split(sep)] for a non-empty [sep]: cut at every occurrence of
    [sep], found from left to right without overlap. *)
Definition split_on (sep s : string) : list string := split_on_go sep s 0 "".

End Str.

(** ** Python lists and dicts *)

Definition eid : Set := nat.

(** [l.remove(x)]: drops the first element equal to [x]; [ValueError] when
    there is none. *)
Fixpoint list_remove (x : eid) (l : list eid) : result (list eid) :=
  match l with
  | [] => Raise ValueError
  | y :: l' =>
      if decide (y = x) then Ok l'
      else l'' ← list_remove x l'; Ok (y :: l'')
  end.

Module Dict.

Definition t (V : Type) : Type := list (string * V).

(** [d.get(k)], with [None] for an absent key *)
Fixpoint lookup {V : Type} (k : string) (d : t V) : option V :=
  match d with
  | [] => None
  | (k', v) :: d' => if decide (k' = k) then Some v else lookup k d'
  end.

(** [k in d] *)
Definition mem {V : Type} (k : string) (d : t V) : bool :=
  match lookup k d with Some _ => true | None => false end.

(** [d[k]] *)
Definition get {V : Type} (k : string) (d : t V) : result V :=
  match lookup k d with Some v => Ok v | None => Raise KeyError end.

(** [d[k] = v]: an existing key keeps its place, a new key goes last. *)
Fixpoint set {V : Type} (k : string) (v : V) (d : t V) : t V :=
  match d with
  | [] => [(k, v)]
  | (k', v') :: d' =>
      if decide (k' = k) then (k, v) :: d' else (k', v') :: set k v d'
  end.

(** [d.keys()] *)
Definition keys {V : Type} (d : t V) : list string := d.*1.

End Dict.

(** ** Components *)

(** [class Name] *)
Record NameT : Set := mkName { name : string; article : option string }.

(** A component object, as handed to [scene.new] and [scene.set]. [Location],
    [Container], [Map], [Description], [Inscription] and [Environment]
    subclass [int], [list], [dict] and [str] and carry just that value. *)
Inductive Component : Type :=
| CPlayer
| CName (n : NameT)
| CDescription (text : string)
| CInscription (text : string)
| CLocation (container : eid)
| CContainer (members : list eid)
| CMap (edges : Dict.t eid)
| CEnvironment (text : string).

(** The components of one entity, at most one of each type. The field names
    are the component types, as passed to [scene.has] and [scene.get]. *)
Record Components : Type := mkComponents {
  Player : option unit;
  Name : option NameT;
  Description : option string;
  Inscription : option string;
  Location : option eid;
  Container : option (list eid);
  Map : option (Dict.t eid);
  Environment : option string
}.

Definition no_components : Components :=
  mkComponents None None None None None None None None.

(** Modelled from the spec: what [scene.new] and [scene.set] of the store do
    with a component object; they add it, or replace the one of its type. *)
Definition attach (comp : Component) (c : Components) : Components :=
  match comp with
  | CPlayer =>
      mkComponents (Some ()) (Name c) (Description c) (Inscription c)
                   (Location c) (Container c) (Map c) (Environment c)
  | CName n =>
      mkComponents (Player c) (Some n) (Description c) (Inscription c)
                   (Location c) (Container c) (Map c) (Environment c)
  | CDescription d =>
      mkComponents (Player c) (Name c) (Some d) (Inscription c)
                   (Location c) (Container c) (Map c) (Environment c)
  | CInscription i =>
      mkComponents (Player c) (Name c) (Description c) (Some i)
                   (Location c) (Container c) (Map c) (Environment c)
  | CLocation l =>
      mkComponents (Player c) (Name c) (Description c) (Inscription c)
                   (Some l) (Container c) (Map c) (Environment c)
  | CContainer m =>
      mkComponents (Player c) (Name c) (Description c) (Inscription c)
                   (Location c) (Some m) (Map c) (Environment c)
  | CMap m =>
      mkComponents (Player c) (Name c) (Description c) (Inscription c)
                   (Location c) (Container c) (Some m) (Environment c)
  | CEnvironment e =>
      mkComponents (Player c) (Name c) (Description c) (Inscription c)
                   (Location c) (Container c) (Map c) (Some e)
  end.

(** [Name.get] *)
Definition Name_get (self : NameT) (definite : bool) : string :=
  let art :=
    match article self with
    | None => ""
    | Some a =>
        if decide (a = "") then ""
        else if definite then "the " else a +:+ " "
    end in
  art +:+ name self.

(** [Name.match] *)
Definition Name_match (self : NameT) (s : string) : bool :=
  bool_decide (Str.lower s = Str.lower (name self)).

(** ** The entity-component store *)

(** Modelled from the spec: the store [mecs.Scene], which [if.py] imports
    and the spec treats as an external collaborator with the operations
    [has], [get], [set], [new] and [select]. Entities are numbered in the
    order [new] creates them. The spec does not say what the operations do
    on an identifier [new] never returned: here [has] answers [False] and
    [get] and [set] raise [KeyError], as [get] does for an absent
    component. *)
Abbreviation Scene := (list Components).

(** Modelled from the spec: the component of a type that the store holds for
    an entity, if any. *)
Definition component {A : Type} (kind : Components -> option A)
    (scene : Scene) (e : eid) : option A :=
  c ← scene !! e; kind c.

(** Modelled from the spec: [scene.has(e, kind)] of the store;
    [scene.has(e, k1, k2)] is the conjunction. *)
Definition has {A : Type} (scene : Scene) (e : eid)
    (kind : Components -> option A) : bool :=
  match component kind scene e with Some _ => true | None => false end.

(** Modelled from the spec: [scene.get(e, kind)] of the store. *)
Definition get {A : Type} (scene : Scene) (e : eid)
    (kind : Components -> option A) : result A :=
  match component kind scene e with Some x => Ok x | None => Raise KeyError end.

(** Modelled from the spec: [scene.set(e, comp)] of the store. *)
Definition set (scene : Scene) (e : eid) (comp : Component) : result Scene :=
  match scene !! e with
  | Some c => Ok (<[e := attach comp c]> scene)
  | None => Raise KeyError
  end.

(** Modelled from the spec: [scene.new(comp, ...)] of the store; the new
    entity gets the next number. *)
Definition new (scene : Scene) (comps : list Component) : eid * Scene :=
  (List.length scene, scene ++ [foldl (fun c comp => attach comp c) no_components comps]).

(** Modelled from the spec: [scene.select(kind)] of the store, the entities
    that have the component, in the order of their creation. *)
Definition select {A : Type} (scene : Scene)
    (kind : Components -> option A) : list eid :=
  List.filter (fun e => has scene e kind) (seq 0 (List.length scene)).

(** ** World-mutation helpers *)

Definition reversemap : Dict.t string :=
  [("north", "south"); ("south", "north");
   ("west", "east"); ("east", "west");
   ("northeast", "southwest"); ("southwest", "northeast");
   ("southeast", "northwest"); ("northwest", "southeast");
   ("up", "down"); ("down", "up")].

Definition maplink (scene : Scene) (source : eid) (direction : string)
    (destination : eid) : result Scene :=
  assert (Dict.mem direction reversemap);;
  assert (has scene source Map);;
  assert (has scene destination Map);;
  m ← get scene source Map;
  scene ← set scene source (CMap (Dict.set direction destination m));
  m ← get scene destination Map;
  back ← Dict.get direction reversemap;
  set scene destination (CMap (Dict.set back source m)).

Definition move (scene : Scene) (entity container : eid) : result Scene :=
  assert (has scene container Container);;
  scene ←
    (if has scene entity Location then
       location ← get scene entity Location;
       assert (has scene location Container);;
       members ← get scene location Container;
       members ← list_remove entity members;
       set scene location (CContainer members)
     else Ok scene);
  scene ← set scene entity (CLocation container);
  members ← get scene container Container;
  set scene container (CContainer (members ++ [entity])).

Definition listjoin (lst : list string) (connector : string) : string :=
  match lst with
  | [] => ""
  | [x] => x
  | _ =>
      Str.join ", " (removelast lst) +:+ " " +:+ connector +:+ " "
        +:+ List.last lst ""
  end.

Definition findByName (scene : Scene) (name : string) (container : list eid)
    : option eid :=
  List.find
    (fun e => has scene e Name &&
              match component Name scene e with
              | Some n => Name_match n name
              | None => false
              end)
    container.

(** ** The command system *)

Import Str.

(** What a command handler returns: the response text, and the scene as the
    handler leaves it. *)
Definition response : Type := result (string * Scene).

Definition handler : Type := Scene -> eid -> list string -> response.

(** [self._HELP] *)
Definition _HELP : Dict.t string :=
  [("help", "Get help for a specific command with 'help <command>'.");
   ("look", "You can look at your environment with 'look' or at specific things with 'look <thing>'. The shorthand for 'look' is 'l'.");
   ("examine", "You can examine things with 'examine <thing>'. This is the same as 'look <thing>'. The shorthand for 'examine' is 'x'.");
   ("go", "You can move through the world with 'go <direction>' where north, south, west, east, northwest, northeast, southwest, southeast, up, and down are valid directions. Their shorthands are n, s, w, e, nw, ne, sw, se, u, and d. You can also use the direction directly, without writing 'go' explicitly. For instance to go north use 'go north' or 'north' or 'n'.");
   ("inventory", "You can view the things that you are carrying with this command. The shorthand is 'i'.");
   ("take", "To add something to your inventory use 'take <thing>'. To take something from a container use 'take <thing> from <container>'.");
   ("drop", "Drop things in your inventory with 'drop <thing>'. To drop something into a container use 'drop <thing> into <container>'.");
   ("read", "You can read a book or some other text with 'read <thing>'.")].

Definition cmdHelp : handler := fun scene player args =>
  match args with
  | [cmd] =>
      if negb (Dict.mem cmd _HELP)
      then Ok ("There is no such command. Try 'help' for a list or commands.", scene)
      else text ← Dict.get cmd _HELP; Ok (text, scene)
  | _ =>
      let msg := "Get further help with 'help <command>'." in
      let msg := msg +:+ nl +:+ "The following commands are available:" in
      let msg := foldl (fun msg cmd => msg +:+ nl +:+ "  " +:+ cmd) msg (Dict.keys _HELP) in
      Ok (msg, scene)
  end.

(** The display names [scene.get(e, Name).get(definite=False)] of a list of
    entities. *)
Definition displaynames (scene : Scene) (things : list eid) : result (list string) :=
  mapR (fun thing => n ← get scene thing Name; Ok (Name_get n false)) things.

Definition cmdLook : handler := fun scene player args =>
  assert (has scene player Location && has scene player Container);;
  location ← get scene player Location;
  match args with
  | [] =>
      assert (has scene location Name && has scene location Description &&
              has scene location Container && has scene location Map);;
      contents ← get scene location Container;
      let things :=
        List.filter (fun e => bool_decide (e ≠ player) && has scene e Name &&
                              negb (has scene e Environment)) contents in
      env ← mapR (fun e => get scene e Environment)
            (List.filter (fun e => has scene e Environment &&
                                   bool_decide (component Environment scene e ≠ Some ""))
                         contents);
      n ← get scene location Name;
      let msg := Name_get n false +:+ nl +:+ nl in
      d ← get scene location Description;
      let msg := msg +:+ d in
      let msg := match env with [] => msg | _ => msg +:+ " " +:+ join " " env end in
      let msg := msg +:+ nl +:+ nl in
      msg ←
        match things with
        | [] => Ok msg
        | _ =>
            names ← displaynames scene things;
            Ok (msg +:+ "Here " +:+ (if 1 <? List.length names then "are" else "is")
                    +:+ " " +:+ listjoin names "and" +:+ "." +:+ nl +:+ nl)
        end;
      m ← get scene location Map;
      Ok (msg +:+ "You can go " +:+ listjoin (Dict.keys m) "or" +:+ ".", scene)
  | _ =>
      let name := join " " args in
      here ← get scene location Container;
      inventory ← get scene player Container;
      match findByName scene name (here ++ inventory) with
      | None => Ok ("There is no such thing.", scene)
      | Some thing =>
          if negb (has scene thing Description) && negb (has scene thing Container)
          then
            n ← get scene thing Name;
            Ok ("There is nothing special about " +:+ Name_get n true +:+ ".", scene)
          else
            msg ←
              (if has scene thing Description
               then d ← get scene thing Description; Ok ("" +:+ d)
               else Ok "");
            msg ←
              (if has scene thing Container
               then
                 members ← get scene thing Container;
                 things ← displaynames scene
                            (List.filter (fun e => has scene e Name) members);
                 match things with
                 | [] => Ok (msg +:+ " It is empty.")
                 | _ => Ok (msg +:+ " It contains " +:+ listjoin things "and" +:+ ".")
                 end
               else Ok msg);
            Ok (msg, scene)
      end
  end.

(** The end of [cmdLook] with arguments, from the checks on the thing found
    on: what is said of the thing. *)
Definition look_thing (scene : Scene) (thing : eid) : response :=
  if negb (has scene thing Description) && negb (has scene thing Container)
  then
    n ← get scene thing Name;
    Ok ("There is nothing special about " +:+ Name_get n true +:+ ".", scene)
  else
    msg ←
      (if has scene thing Description
       then d ← get scene thing Description; Ok ("" +:+ d)
       else Ok "");
    msg ←
      (if has scene thing Container
       then
         members ← get scene thing Container;
         things ← displaynames scene
                    (List.filter (fun e => has scene e Name) members);
         match things with
         | [] => Ok (msg +:+ " It is empty.")
         | _ => Ok (msg +:+ " It contains " +:+ listjoin things "and" +:+ ".")
         end
       else Ok msg);
    Ok (msg, scene).

Definition cmdExamine : handler := fun scene player args =>
  match args with
  | [] => Ok ("You have to name a thing to examine.", scene)
  | _ => cmdLook scene player args
  end.

Definition expansion : Dict.t string :=
  [("n", "north"); ("s", "south"); ("w", "west"); ("e", "east");
   ("nw", "northwest"); ("ne", "northeast"); ("sw", "southwest");
   ("se", "southeast"); ("u", "up"); ("d", "down")].

Definition cmdGo : handler := fun scene player args =>
  match args with
  | [] => Ok ("You have to name a direction to go towards.", scene)
  | _ =>
      assert (has scene player Location);;
      location ← get scene player Location;
      assert (has scene location Map);;
      map ← get scene location Map;
      let direction := join " " args in
      direction ←
        (if Dict.mem direction expansion
         then Dict.get direction expansion
         else Ok direction);
      if negb (Dict.mem direction map)
      then Ok ("You cannot go this way.", scene)
      else
        destination ← Dict.get direction map;
        scene ← move scene player destination;
        cmdLook scene player []
  end.

Definition cmdNorth : handler := fun scene player args =>
  cmdGo scene player ("north" :: args).
Definition cmdSouth : handler := fun scene player args =>
  cmdGo scene player ("south" :: args).
Definition cmdEast : handler := fun scene player args =>
  cmdGo scene player ("east" :: args).
Definition cmdWest : handler := fun scene player args =>
  cmdGo scene player ("west" :: args).
Definition cmdNorthwest : handler := fun scene player args =>
  cmdGo scene player ("northwest" :: args).
Definition cmdSouthwest : handler := fun scene player args =>
  cmdGo scene player ("southwest" :: args).
Definition cmdNortheast : handler := fun scene player args =>
  cmdGo scene player ("northeast" :: args).
Definition cmdSoutheast : handler := fun scene player args =>
  cmdGo scene player ("southeast" :: args).
Definition cmdUp : handler := fun scene player args =>
  cmdGo scene player ("up" :: args).
Definition cmdDown : handler := fun scene player args =>
  cmdGo scene player ("down" :: args).

Definition cmdInventory : handler := fun scene player args =>
  assert (has scene player Container);;
  inventory ← get scene player Container;
  names ← displaynames scene (List.filter (fun e => has scene e Name) inventory);
  match names with
  | [] => Ok ("You are carrying nothing.", scene)
  | _ =>
      let msg := "You carry the following things:" in
      let msg := foldl (fun msg name => msg +:+ nl +:+ "  " +:+ name) msg names in
      Ok (msg, scene)
  end.

(** The end of [cmdTake], from [thing = findByName(scene, name, container)]
    on: the checks on the thing found, and the move. *)
Definition cmdTake_thing (scene : Scene) (player : eid) (name : string)
    (container : list eid) : response :=
  match findByName scene name container with
  | None => Ok ("There is no such thing.", scene)
  | Some thing =>
      if has scene thing Location &&
         bool_decide (component Location scene thing = Some player)
      then Ok ("You already have that.", scene)
      else if has scene thing Environment
      then Ok ("You are unable to take that.", scene)
      else
        scene ← move scene thing player;
        Ok ("Taken.", scene)
  end.

Definition cmdTake : handler := fun scene player args =>
  match args with
  | [] => Ok ("You have to name a thing to take.", scene)
  | _ =>
      assert (has scene player Location && has scene player Container);;
      location ← get scene player Location;
      assert (has scene location Container);;
      let name := join " " args in
      here ← get scene location Container;
      inventory ← get scene player Container;
      let container := here ++ inventory in
      if contains " from " name
      then
        match split_on " from " name with
        | [name; containername] =>
            match findByName scene containername container with
            | None => Ok ("There is no such container.", scene)
            | Some container =>
                if negb (has scene container Container)
                then Ok ("You cannot do that.", scene)
                else
                  container ← get scene container Container;
                  cmdTake_thing scene player name container
            end
        | _ => Raise ValueError
        end
      else cmdTake_thing scene player name container
  end.

(** The end of [cmdDrop], from [thing = findByName(...)] on. *)
Definition cmdDrop_thing (scene : Scene) (player location : eid)
    (name : string) (container : eid) : response :=
  inventory ← get scene player Container;
  here ← get scene location Container;
  match findByName scene name (inventory ++ here) with
  | None => Ok ("There is no such thing.", scene)
  | Some thing =>
      assert (has scene thing Location);;
      l ← get scene thing Location;
      if bool_decide (l ≠ player)
      then Ok ("You do not have that.", scene)
      else if bool_decide (thing = container)
      then Ok ("You cannot do that.", scene)
      else
        scene ← move scene thing container;
        Ok ("Dropped.", scene)
  end.

Definition cmdDrop : handler := fun scene player args =>
  match args with
  | [] => Ok ("You have to name a thing to drop.", scene)
  | _ =>
      assert (has scene player Location && has scene player Container);;
      location ← get scene player Location;
      assert (has scene location Container);;
      let name := join " " args in
      if contains " into " name
      then
        match split_on " into " name with
        | [name; containername] =>
            inventory ← get scene player Container;
            here ← get scene location Container;
            match findByName scene containername (inventory ++ here) with
            | None => Ok ("There is no such container.", scene)
            | Some container =>
                if negb (has scene container Container)
                then Ok ("You cannot do that.", scene)
                else cmdDrop_thing scene player location name container
            end
        | _ => Raise ValueError
        end
      else cmdDrop_thing scene player location name location
  end.

Definition cmdRead : handler := fun scene player args =>
  match args with
  | [] => Ok ("You have to name a thing you want to read.", scene)
  | _ =>
      assert (has scene player Container && has scene player Location);;
      location ← get scene player Location;
      assert (has scene location Container);;
      let name := join " " args in
      inventory ← get scene player Container;
      here ← get scene location Container;
      match findByName scene name (inventory ++ here) with
      | None => Ok ("There is no such thing.", scene)
      | Some thing =>
          if negb (has scene thing Inscription)
          then Ok ("There is nothing to read.", scene)
          else
            text ← get scene thing Inscription;
            Ok ("It says: '" +:+ text +:+ "'", scene)
      end
  end.

(** [self._COMMANDS] *)
Definition _COMMANDS : Dict.t handler :=
  [("help", cmdHelp);
   ("look", cmdLook); ("l", cmdLook);
   ("examine", cmdExamine); ("x", cmdExamine);
   ("go", cmdGo);
   ("north", cmdNorth); ("n", cmdNorth);
   ("south", cmdSouth); ("s", cmdSouth);
   ("west", cmdWest); ("w", cmdWest);
   ("east", cmdEast); ("e", cmdEast);
   ("northwest", cmdNorthwest); ("nw", cmdNorthwest);
   ("northeast", cmdNortheast); ("ne", cmdNortheast);
   ("southwest", cmdSouthwest); ("sw", cmdSouthwest);
   ("southeast", cmdSoutheast); ("se", cmdSoutheast);
   ("up", cmdUp); ("u", cmdUp);
   ("down", cmdDown); ("d", cmdDown);
   ("inventory", cmdInventory); ("i", cmdInventory);
   ("take", cmdTake);
   ("drop", cmdDrop);
   ("read", cmdRead)].

Definition unknown_command : string :=
  "You don't know how to do this, but you can always ask for 'help'.".

(** The body of the loop of [onUpdate] for the player [eid], on the line
    [input] returned: the text of the second [print] and the scene
    afterwards. [cmd, *args = ...] raises [ValueError] on an empty list. *)
Definition dispatch (scene : Scene) (eid : eid) (line : string) : response :=
  match split (lower line) with
  | [] => Raise ValueError
  | cmd :: args =>
      if Dict.mem cmd _COMMANDS
      then h ← Dict.get cmd _COMMANDS; h scene eid args
      else Ok (unknown_command, scene)
  end.

(** [onUpdate], reading the lines [inputs] one per player entity; it returns
    the texts printed, the lines not read and the scene. [input] raises
    [EOFError] when no line is left. *)
Fixpoint onUpdate_loop (players : list eid) (scene : Scene) (inputs : list string)
    : result (list string * list string * Scene) :=
  match players with
  | [] => Ok ([], inputs, scene)
  | eid :: players' =>
      match inputs with
      | [] => Raise EOFError
      | line :: inputs' =>
          '(text, scene) ← dispatch scene eid line;
          '(texts, rest, scene) ← onUpdate_loop players' scene inputs';
          Ok ("" :: text :: texts, rest, scene)
      end
  end.

Definition onUpdate (scene : Scene) (inputs : list string)
    : result (list string * list string * Scene) :=
  onUpdate_loop (select scene Player) scene inputs.

(** [onStart]: the text of [look] printed for every player entity; it returns
    the texts printed and the scene. *)
Fixpoint onStart_loop (players : list eid) (scene : Scene)
    : result (list string * Scene) :=
  match players with
  | [] => Ok ([], scene)
  | eid :: players' =>
      h ← Dict.get "look" _COMMANDS;
      '(text, scene) ← h scene eid [];
      '(texts, scene) ← onStart_loop players' scene;
      Ok (text :: texts, scene)
  end.

Definition onStart (scene : Scene) : result (list string * Scene) :=
  onStart_loop (select scene Player) scene.

(** ** The world [main] sets up *)

(** The set-up part of [main], up to the main loop. *)
Definition main_setup : result Scene :=
  let scene : Scene := [] in
  let '(plant, scene) :=
    new scene [CName (mkName "plant" (Some "a"));
               CDescription "It has seen better days.";
               CEnvironment "Over in the corner there is a plant."] in
  let '(picture, scene) :=
    new scene [CName (mkName "picture" (Some "a"));
               CDescription "A boat on a lake.";
               CEnvironment "There is a picture on the wall."] in
  let '(window, scene) :=
    new scene [CName (mkName "window" (Some "a"));
               CDescription "The sun is shining outside.";
               CEnvironment "On the west side of the room there is a window."] in
  let '(rug, scene) :=
    new scene [CName (mkName "rug" (Some "a"));
               CDescription "An antique oriental rug.";
               CEnvironment "There is a rug on the floor."] in
  let '(livingroom, scene) :=
    new scene [CName (mkName "The Living Room" None);
               CDescription "This is the living room.";
               CContainer [plant; picture; window; rug];
               CMap []] in
  let '(tree, scene) :=
    new scene [CName (mkName "tree" None);
               CDescription "It's an apple tree.";
               CEnvironment "In the middle of the garden is a large tree."] in
  let '(garden, scene) :=
    new scene [CName (mkName "The Garden" None);
               CDescription "This is the garden.";
               CContainer [tree];
               CMap []] in
  scene ← maplink scene livingroom "west" garden;
  let '(player, scene) :=
    new scene [CPlayer;
               CName (mkName "Player" None);
               CDescription "This is you.";
               CContainer []] in
  scene ← move scene player livingroom;
  let '(book, scene) :=
    new scene [CName (mkName "book" (Some "a"));
               CDescription "'Alice's Adventures in Wonderland' by Lewis Carroll.";
               CInscription "Alice was beginning to get very tired of sitting by her sister on the bank, and of having nothing to do: once or twice she had peeped into the book her sister was reading, but it had no pictures or conversations in it, 'and what is the use of a book,' thought Alice 'without pictures or conversations?'"] in
  scene ← move scene book livingroom;
  let '(box, scene) :=
    new scene [CName (mkName "box" (Some "a"));
               CDescription "A box.";
               CContainer []] in
  scene ← move scene box livingroom;
  let '(dice, scene) :=
    new scene [CName (mkName "die" (Some "a"));
               CDescription "A small die."] in
  scene ← move scene dice box;
  let '(marble, scene) :=
    new scene [CName (mkName "marble" (Some "a"));
               CDescription "A white marble."] in
  scene ← move scene marble livingroom;
  let '(shovel, scene) :=
    new scene [CName (mkName "shovel" (Some "a"));
               CDescription "A small chrome shovel."] in
  scene ← move scene shovel garden;
  Ok scene.

(** The entity ids [main] gets from [scene.new], in creation order. *)
Definition plant : eid := 0.
Definition picture : eid := 1.
Definition window : eid := 2.
Definition rug : eid := 3.
Definition livingroom : eid := 4.
Definition tree : eid := 5.
Definition garden : eid := 6.
Definition player : eid := 7.
Definition book : eid := 8.
Definition box : eid := 9.
Definition dice : eid := 10.
Definition marble : eid := 11.
Definition shovel : eid := 12.

(** The scene when the main loop starts. *)
Definition world : Scene :=
  Eval vm_compute in
    match main_setup with Ok scene => scene | Raise _ => [] end.

(** The scenes the main loop goes through: the world of [main], and the
    scene after any command of a player entity that returned. *)
Inductive reachable : Scene -> Prop :=
| reachable_start : reachable world
| reachable_command scene eid line text scene' :
    reachable scene ->
    eid ∈ select scene Player ->
    dispatch scene eid line = Ok (text, scene') ->
    reachable scene'.

(** * Vocabulary of the properties *)

(** The five pairs of opposite directions: north and south, east and west,
    the two pairs of diagonals, up and down. *)
Definition direction_pairs : list (string * string) :=
  [("north", "south"); ("east", "west");
   ("northeast", "southwest"); ("northwest", "southeast");
   ("up", "down")].

(** [o] is the direction opposite to [d]: the two form one of the five
    pairs, either way round. *)
Definition opposite_of (d o : string) : Prop :=
  (d, o) ∈ direction_pairs \/ (o, d) ∈ direction_pairs.

(** Two characters that differ at most in case: the same character, or a
    capital letter on one side and its small letter on the other. *)
Definition same_up_to_case (a b : ascii) : Prop :=
  a = b \/
  (Str.is_upper a = true /\ nat_of_ascii b = nat_of_ascii a + 32) \/
  (Str.is_upper b = true /\ nat_of_ascii a = nat_of_ascii b + 32).

(** Two texts that are equal when case is ignored: of the same length, and
    character by character the same up to case. *)
Inductive caseless : string -> string -> Prop :=
| caseless_empty : caseless "" ""
| caseless_step a b s t :
    same_up_to_case a b -> caseless s t -> caseless (String a s) (String b t).

(** The entity has a Name component whose text is [text] up to case. *)
Definition matches (scene : Scene) (text : string) (e : eid) : Prop :=
  exists n, component Name scene e = Some n /\ caseless text (name n).

(** The test [findByName] applies to each candidate. *)
Definition candidate_ok (scene : Scene) (text : string) (e : eid) : bool :=
  has scene e Name &&
  match component Name scene e with
  | Some n => Name_match n text
  | None => false
  end.

(** The canonical command names, in the order of the help table. *)
Definition canonical_commands : list string :=
  ["help"; "look"; "examine"; "go"; "inventory"; "take"; "drop"; "read"].

(** The answer of [help] that lists the commands. *)
Definition help_list : string :=
  "Get further help with 'help <command>'." +:+ nl +:+
  "The following commands are available:" +:+
  String.concat "" (List.map (fun cmd => nl +:+ "  " +:+ cmd) canonical_commands).

(** The direction [go] looks up: the full name of an abbreviation, any other
    text as it is. *)
Definition expand (direction : string) : string :=
  match Dict.lookup direction expansion with
  | Some full => full
  | None => direction
  end.

(** The bare-direction command words, each with the direction it stands for. *)
Definition direction_words : list (string * string) :=
  [("north", "north"); ("n", "north"); ("south", "south"); ("s", "south");
   ("west", "west"); ("w", "west"); ("east", "east"); ("e", "east");
   ("northwest", "northwest"); ("nw", "northwest");
   ("northeast", "northeast"); ("ne", "northeast");
   ("southwest", "southwest"); ("sw", "southwest");
   ("southeast", "southeast"); ("se", "southeast");
   ("up", "up"); ("u", "up"); ("down", "down"); ("d", "down")].

(** The thing the take command settles on, for the arguments [args]: found by
    name among the contents of the location and the inventory, or, with a
    [from] clause, among the members of the container found by name there. *)
Definition take_resolves (scene : Scene) (player : eid) (args : list string)
    (thing : eid) : Prop :=
  exists location here inventory,
    args ≠ [] /\
    component Location scene player = Some location /\
    component Container scene location = Some here /\
    component Container scene player = Some inventory /\
    ((contains " from " (join " " args) = false /\
      findByName scene (join " " args) (here ++ inventory) = Some thing) \/
     (contains " from " (join " " args) = true /\
      exists text containername container members,
        split_on " from " (join " " args) = [text; containername] /\
        findByName scene containername (here ++ inventory) = Some container /\
        component Container scene container = Some members /\
        findByName scene text members = Some thing)).

(** How often [x] is listed in [l]. *)
Definition occurrences (x : eid) (l : list eid) : nat :=
  List.length (List.filter (fun y => bool_decide (y = x)) l).

(** [m] is a member of [Container(c)]. *)
Definition inside (scene : Scene) (m c : eid) : Prop :=
  exists members, component Container scene c = Some members /\ m ∈ members.

(** The member list of [x] once [entity] is taken off the list of the
    container its Location names. *)
Definition taken_off (scene : Scene) (entity x : eid) : option (list eid) :=
  match component Location scene entity with
  | Some location =>
      if decide (x = location)
      then old ← component Container scene location;
           match list_remove entity old with
           | Ok old' => Some old'
           | Raise _ => None
           end
      else component Container scene x
  | None => component Container scene x
  end.

(** The scene after the command [take book] in the world of [main]. *)
Definition book_taken : Scene :=
  Eval vm_compute in
    match dispatch world player "take book" with
    | Ok (_, scene) => scene
    | Raise _ => []
    end.

(** The scene after [move(book, player)] in that scene, where the player
    already holds the book. *)
Definition book_put_back : Scene :=
  Eval vm_compute in
    match move book_taken book player with
    | Ok scene => scene
    | Raise _ => []
    end.

(** What holds of Location and Container in every scene of the game: no
    member list names an entity twice, no entity is on two lists, an entity
    with a Location is on the list of the container its Location names, and
    a listed entity without Location is scenery (it carries Environment). *)
Record consistent (scene : Scene) : Prop := {
  members_once :
    forall c members, component Container scene c = Some members -> NoDup members;
  members_single :
    forall m c1 c2, inside scene m c1 -> inside scene m c2 -> c1 = c2;
  location_inside :
    forall e l, component Location scene e = Some l -> inside scene e l;
  members_scenery :
    forall m c, inside scene m c -> component Location scene m = None ->
                has scene m Environment = true
}.

(** A command leaves the scene as it is, or changes it by one [move] of an
    entity that has a Location or is listed somewhere without being
    scenery. *)
Definition effect (scene scene' : Scene) : Prop :=
  scene' = scene \/
  exists e c,
    move scene e c = Ok scene' /\
    (is_Some (component Location scene e) \/
     (has scene e Environment = false /\ exists x, inside scene e x)).

(** Every call of the handler that returns has such an effect. *)
Definition handler_effect (h : handler) : Prop :=
  forall scene player args text scene',
    h scene player args = Ok (text, scene') -> effect scene scene'.

(** A line of whitespace only (the empty line is one). *)
Fixpoint blank (line : string) : bool :=
  match line with
  | EmptyString => true
  | String c line' => Str.is_space c && blank line'
  end.

(** The command words whose handlers call [move]. *)
Definition moving_words : list string :=
  ["go"; "take"; "drop"] ++ direction_words.*1.

(** The thing and the container the drop command settles on, for the
    arguments [args]: the thing found by name among the inventory and the
    contents of the location; the container the location itself or, with an
    [into] clause, the entity with a Container found by name in the same
    lists. *)
Definition drop_resolves (scene : Scene) (player : eid) (args : list string)
    (thing container : eid) : Prop :=
  exists location here inventory,
    args ≠ [] /\
    component Location scene player = Some location /\
    component Container scene location = Some here /\
    component Container scene player = Some inventory /\
    ((contains " into " (join " " args) = false /\
      container = location /\
      findByName scene (join " " args) (inventory ++ here) = Some thing) \/
     (contains " into " (join " " args) = true /\
      exists text containername,
        split_on " into " (join " " args) = [text; containername] /\
        findByName scene containername (inventory ++ here) = Some container /\
        has scene container Container = true /\
        findByName scene text (inventory ++ here) = Some thing)).

(** What [look] without arguments asserts: the actor has Location and
    Container, the location has Name, Description, Container and Map. *)
Definition look_ready (scene : Scene) (player : eid) : bool :=
  has scene player Location && has scene player Container &&
  match component Location scene player with
  | Some location =>
      has scene location Name && has scene location Description &&
      has scene location Container && has scene location Map
  | None => false
  end.

(** A text without any whitespace character. *)
Fixpoint spaceless (s : string) : bool :=
  match s with
  | EmptyString => true
  | String c s' => negb (Str.is_space c) && spaceless s'
  end.

(** A token: a non-empty text without whitespace. *)
Definition token (t : string) : Prop := t ≠ "" /\ spaceless t = true.

(** The separator of a clause word: the word between two spaces. *)
Definition clause (w : string) : string := String " " (w +:+ " ").

(** What follows the first of some tokens joined by spaces. *)
Definition joined_tail (ts : list string) : string :=
  match ts with
  | [] => ""
  | _ => " " +:+ join " " ts
  end.

(** One tick, player by player: [tick players scene used texts scene']
    holds when the lines [used], one for each of [players] in turn, are each
    answered by [dispatch] in the scene the line before has left, [texts] is,
    for each player, an empty line followed by that answer, and [scene'] is
    the scene after the last line. *)
Inductive tick : list eid -> Scene -> list string -> list string -> Scene -> Prop :=
| tick_done scene : tick [] scene [] [] scene
| tick_player eid players scene line used text texts scene1 scene' :
    dispatch scene eid line = Ok (text, scene1) ->
    tick players scene1 used texts scene' ->
    tick (eid :: players) scene (line :: used) ("" :: text :: texts) scene'.

(** A name as it is listed: the name text, with the article and a space
    before it when the name has a non-empty article. *)
Definition with_article (n : NameT) : string :=
  match article n with
  | Some a => if decide (a = "") then name n else a +:+ " " +:+ name n
  | None => name n
  end.

(** The entity found by name in two lists searched in this order: the match
    of the first list if it has one, else the match of the second. *)
Definition first_match (scene : Scene) (text : string)
    (first second : list eid) : option eid :=
  match findByName scene text first with
  | Some e => Some e
  | None => findByName scene text second
  end.

(** * Properties *)

Lemma main_setup_world : main_setup = Ok world.
Proof. vm_compute. reflexivity. Qed.

(** ** The result monad *)

Lemma bind_Ok {A B : Type} (m : result A) (f : A -> result B) (b : B) :
  m ≫= f = Ok b <-> exists a, m = Ok a /\ f a = Ok b.
Proof.
  destruct m as [a|e]; simpl; split.
  - intros H. exists a. done.
  - intros (a' & [= ->] & H). done.
  - done.
  - intros (a' & [=] & _).
Qed.

Lemma assert_Ok (cond : bool) (u : unit) : assert cond = Ok u <-> cond = true.
Proof. destruct cond, u; simpl; split; done. Qed.

(** ** The store *)

Lemma has_true {A : Type} (scene : Scene) (e : eid) (kind : Components -> option A) :
  has scene e kind = true <-> is_Some (component kind scene e).
Proof.
  unfold has. destruct (component kind scene e); split; done.
Qed.

Lemma has_false {A : Type} (scene : Scene) (e : eid) (kind : Components -> option A) :
  has scene e kind = false <-> component kind scene e = None.
Proof. unfold has. by destruct (component kind scene e). Qed.

Lemma get_Ok {A : Type} (scene : Scene) (e : eid) (kind : Components -> option A) (x : A) :
  get scene e kind = Ok x <-> component kind scene e = Some x.
Proof.
  unfold get. destruct (component kind scene e); split; congruence.
Qed.

Lemma has_get {A : Type} (scene : Scene) (e : eid) (kind : Components -> option A) :
  has scene e kind = true -> exists x, get scene e kind = Ok x.
Proof.
  intros [x Hx]%has_true. exists x. by apply get_Ok.
Qed.

Lemma set_Ok (scene scene' : Scene) (e : eid) (comp : Component) :
  set scene e comp = Ok scene' <->
  exists c, scene !! e = Some c /\ scene' = <[e := attach comp c]> scene.
Proof.
  unfold set. destruct (scene !! e) as [c|]; split.
  - intros [= <-]. by exists c.
  - by intros (c' & [= <-] & ->).
  - done.
  - by intros (c' & [=] & _).
Qed.

Lemma set_returns (scene : Scene) (e : eid) (comp : Component) :
  is_Some (scene !! e) -> exists scene', set scene e comp = Ok scene'.
Proof. intros [c Hc]. unfold set. rewrite Hc. by eexists. Qed.

Lemma component_entity {A : Type} (kind : Components -> option A) scene e x :
  component kind scene e = Some x -> is_Some (scene !! e).
Proof. unfold component. destruct (scene !! e); [by eexists | done]. Qed.

(** What [set] leaves of every component of every entity. *)
Lemma component_set {A : Type} (kind : Components -> option A)
    (scene scene' : Scene) (e x : eid) (comp : Component) :
  set scene e comp = Ok scene' ->
  component kind scene' x =
    if decide (x = e) then c ← scene !! e; kind (attach comp c)
    else component kind scene x.
Proof.
  intros (c & Hc & ->)%set_Ok. unfold component.
  destruct (decide (x = e)) as [->|Hne].
  - rewrite list_lookup_insert_eq; [by rewrite Hc|].
    by eapply lookup_lt_Some.
  - by rewrite list_lookup_insert_ne.
Qed.

Lemma component_set_ne {A : Type} (kind : Components -> option A)
    (scene scene' : Scene) (e x : eid) (comp : Component) :
  set scene e comp = Ok scene' -> x ≠ e ->
  component kind scene' x = component kind scene x.
Proof. intros H Hne. rewrite (component_set _ _ _ _ _ _ H). by case_decide. Qed.

Lemma Container_set_Container scene scene' e members :
  set scene e (CContainer members) = Ok scene' ->
  component Container scene' e = Some members.
Proof.
  intros H. rewrite (component_set _ _ _ _ _ _ H). case_decide; [|done].
  apply set_Ok in H as (c & -> & _). done.
Qed.

Lemma Location_set_Location scene scene' e l :
  set scene e (CLocation l) = Ok scene' ->
  component Location scene' e = Some l.
Proof.
  intros H. rewrite (component_set _ _ _ _ _ _ H). case_decide; [|done].
  apply set_Ok in H as (c & -> & _). done.
Qed.

Lemma Map_set_Map scene scene' e m :
  set scene e (CMap m) = Ok scene' ->
  component Map scene' e = Some m.
Proof.
  intros H. rewrite (component_set _ _ _ _ _ _ H). case_decide; [|done].
  apply set_Ok in H as (c & -> & _). done.
Qed.

(** Setting a component of one type leaves the components of the other types
    where they are, on every entity. *)
Lemma component_set_other {A : Type} (kind : Components -> option A)
    (scene scene' : Scene) (e x : eid) (comp : Component) :
  set scene e comp = Ok scene' ->
  (forall c, kind (attach comp c) = kind c) ->
  component kind scene' x = component kind scene x.
Proof.
  intros H Hkind. rewrite (component_set _ _ _ _ _ _ H).
  case_decide as Hx; [subst x|done].
  unfold component. destruct (scene !! e) as [c|]; simpl; [apply Hkind|done].
Qed.

(** ** Dictionaries *)

Lemma Dict_lookup_set_eq {V : Type} (k : string) (v : V) (d : Dict.t V) :
  Dict.lookup k (Dict.set k v d) = Some v.
Proof.
  induction d as [|[k' v'] d IH]; simpl.
  - by rewrite decide_True.
  - destruct (decide (k' = k)) as [->|Hne]; simpl.
    + by rewrite decide_True.
    + by rewrite decide_False.
Qed.

Lemma Dict_lookup_set_ne {V : Type} (k k0 : string) (v : V) (d : Dict.t V) :
  k ≠ k0 -> Dict.lookup k0 (Dict.set k v d) = Dict.lookup k0 d.
Proof.
  intros Hne. induction d as [|[k' v'] d IH]; simpl.
  - by rewrite decide_False.
  - destruct (decide (k' = k)) as [->|Hne']; simpl.
    + by rewrite !decide_False.
    + by rewrite IH.
Qed.

Lemma Dict_mem_true {V : Type} (k : string) (d : Dict.t V) :
  Dict.mem k d = true <-> is_Some (Dict.lookup k d).
Proof.
  unfold Dict.mem. destruct (Dict.lookup k d); split; done.
Qed.

Lemma Dict_get_Ok {V : Type} (k : string) (d : Dict.t V) (v : V) :
  Dict.get k d = Ok v <-> Dict.lookup k d = Some v.
Proof. unfold Dict.get. destruct (Dict.lookup k d); split; congruence. Qed.

(** ** maplink *)

(** The opposite table pairs each direction with another one, both ways. *)
Lemma reversemap_pairs (d back : string) :
  Dict.lookup d reversemap = Some back ->
  back ≠ d /\ Dict.lookup back reversemap = Some d.
Proof.
  unfold reversemap. simpl.
  repeat (case_decide; [subst d; intros [= <-]; split; [done | reflexivity] |]).
  done.
Qed.

Lemma reversemap_keys :
  Dict.keys reversemap =
    ["north"; "south"; "west"; "east"; "northeast"; "southwest";
     "southeast"; "northwest"; "up"; "down"].
Proof. reflexivity. Qed.

(** The opposite table of [maplink] gives each direction the other one of
    its pair. *)
Lemma reversemap_opposite (d back : string) :
  Dict.lookup d reversemap = Some back -> opposite_of d back.
Proof.
  unfold reversemap, opposite_of, direction_pairs. simpl.
  repeat (case_decide;
          [subst d; intros [= <-];
           first [ left; solve [repeat first [apply list_elem_of_here
                                             | apply list_elem_of_further]]
                 | right; solve [repeat first [apply list_elem_of_here
                                              | apply list_elem_of_further]] ]
          |]).
  done.
Qed.

(** C3. For each of the ten directions [d] and entities [a] and [b] that both
    have a Map, [maplink(a, d, b)] returns, and afterwards [Map(a)[d] == b]
    and [Map(b)[opposite(d)] == a], where the opposite of a direction is the
    other one of its pair among north/south, east/west,
    northeast/southwest, northwest/southeast and up/down, which is what the
    table [reversemap] of the code gives. *)
Theorem maplink_symmetry (scene : Scene) (a b : eid) (d : string) :
  d ∈ ["north"; "south"; "west"; "east"; "northeast"; "southwest";
       "southeast"; "northwest"; "up"; "down"] ->
  has scene a Map = true ->
  has scene b Map = true ->
  exists scene' opposite ma mb,
    opposite_of d opposite /\
    maplink scene a d b = Ok scene' /\
    Dict.lookup d reversemap = Some opposite /\
    Dict.lookup opposite reversemap = Some d /\
    component Map scene' a = Some ma /\ Dict.lookup d ma = Some b /\
    component Map scene' b = Some mb /\ Dict.lookup opposite mb = Some a.
Proof.
  intros Hd Ha Hb.
  assert (Hmem : Dict.mem d reversemap = true).
  { rewrite <- reversemap_keys in Hd. unfold Dict.keys in Hd.
    apply list_elem_of_fmap in Hd as ([k v] & -> & Hin).
    unfold reversemap in Hin. simpl.
    repeat (apply elem_of_cons in Hin as [[= -> ->]|Hin]; [reflexivity|]).
    by apply elem_of_nil in Hin. }
  destruct (proj1 (Dict_mem_true _ _) Hmem) as [back Hback].
  destruct (reversemap_pairs _ _ Hback) as [Hne Hpair].
  destruct (has_get _ _ _ Ha) as [m Hm].
  destruct (set_returns scene a (CMap (Dict.set d b m))) as [s1 Hs1].
  { apply get_Ok in Hm. by eapply component_entity. }
  assert (Hb1 : exists m1, component Map s1 b = Some m1 /\ Dict.lookup d m1 = 
                             (if decide (b = a) then Some b else Dict.lookup d m1)).
  { destruct (decide (b = a)) as [->|Hba].
    - exists (Dict.set d a m). split; [by eapply Map_set_Map|].
      apply Dict_lookup_set_eq.
    - apply has_true in Hb as [mb Hmb]. exists mb.
      by rewrite (component_set_ne _ _ _ _ _ _ Hs1 Hba). }
  destruct Hb1 as (m1 & Hm1 & Hd1).
  destruct (set_returns s1 b (CMap (Dict.set back a m1))) as [s2 Hs2].
  { by eapply component_entity. }
  exists s2, back.
  exists (if decide (a = b) then Dict.set back a m1 else Dict.set d b m).
  exists (Dict.set back a m1).
  split; [by apply reversemap_opposite|].
  split; [|split; [done|split; [done|]]].
  - unfold maplink. rewrite Hmem, Ha, Hb. simpl. rewrite Hm. simpl.
    rewrite Hs1. simpl. apply get_Ok in Hm1. rewrite Hm1. simpl.
    apply Dict_get_Ok in Hback. rewrite Hback. simpl. done.
  - split; [|split; [|split]].
    + rewrite (component_set _ _ _ _ _ _ Hs2).
      destruct (decide (a = b)) as [->|Hab].
      * apply set_Ok in Hs2 as (c & -> & _). done.
      * by eapply Map_set_Map.
    + destruct (decide (a = b)) as [->|Hab].
      * rewrite Dict_lookup_set_ne by done. rewrite Hd1. by rewrite decide_True.
      * apply Dict_lookup_set_eq.
    + by eapply Map_set_Map.
    + apply Dict_lookup_set_eq.
Qed.

Lemma maplink_symmetry_witness :
  exists scene' ma mb,
    maplink world livingroom "north" garden = Ok scene' /\
    component Map scene' livingroom = Some ma /\
    Dict.lookup "north" ma = Some garden /\
    component Map scene' garden = Some mb /\
    Dict.lookup "south" mb = Some livingroom.
Proof.
  destruct (maplink_symmetry world livingroom garden "north")
    as (scene' & opposite & ma & mb & Hopp & Hlink & Hback & _ & Ha & Hda & Hb & Hdb).
  - apply elem_of_cons. by left.
  - reflexivity.
  - reflexivity.
  - assert (opposite = "south") as ->.
    { destruct Hopp as [Hin|Hin]; unfold direction_pairs in Hin;
        repeat (apply elem_of_cons in Hin as [Heq|Hin];
                [first [discriminate Heq | by injection Heq as ->]|]);
        by apply elem_of_nil in Hin. }
    by exists scene', ma, mb.
Defined.

(** ** Name matching and findByName *)

Lemma nat_of_lower_ascii (c : ascii) :
  nat_of_ascii (Str.lower_ascii c) =
    if Str.is_upper c then nat_of_ascii c + 32 else nat_of_ascii c.
Proof.
  unfold Str.lower_ascii. destruct (Str.is_upper c) eqn:Hup; [|done].
  apply nat_ascii_embedding. unfold Str.is_upper in Hup.
  apply andb_true_iff in Hup as [_ Hle%Nat.leb_le]. lia.
Qed.

Lemma nat_of_ascii_inj (a b : ascii) : nat_of_ascii a = nat_of_ascii b -> a = b.
Proof.
  intros H. rewrite <- (ascii_nat_embedding a), <- (ascii_nat_embedding b).
  by rewrite H.
Qed.

Lemma lower_ascii_eq (a b : ascii) :
  Str.lower_ascii a = Str.lower_ascii b <-> same_up_to_case a b.
Proof.
  split.
  - intros H. apply (f_equal nat_of_ascii) in H.
    rewrite !nat_of_lower_ascii in H. unfold same_up_to_case.
    destruct (Str.is_upper a) eqn:Ha, (Str.is_upper b) eqn:Hb.
    + left. apply nat_of_ascii_inj. lia.
    + right. left. split; [done|lia].
    + right. right. split; [done|lia].
    + left. by apply nat_of_ascii_inj.
  - intros [->|[[Ha Hb]|[Hb Ha]]]; [done| |];
      apply nat_of_ascii_inj; rewrite !nat_of_lower_ascii.
    + rewrite Ha.
      assert (Str.is_upper b = false) as ->; [|lia].
      unfold Str.is_upper in *. rewrite Hb.
      apply andb_true_iff in Ha as [Hlo%Nat.leb_le _].
      apply andb_false_iff. right. apply Nat.leb_gt. lia.
    + rewrite Hb.
      assert (Str.is_upper a = false) as ->; [|lia].
      unfold Str.is_upper in *. rewrite Ha.
      apply andb_true_iff in Hb as [Hlo%Nat.leb_le _].
      apply andb_false_iff. right. apply Nat.leb_gt. lia.
Qed.

(** Comparing the lower-cased texts is comparing the texts up to case. *)
Lemma lower_eq_caseless (s t : string) :
  Str.lower s = Str.lower t <-> caseless s t.
Proof.
  split.
  - revert t. induction s as [|a s IH]; intros [|b t]; simpl; try done.
    + intros _. constructor.
    + intros [= Hc Hs]. constructor; [by apply lower_ascii_eq | by apply IH].
  - induction 1 as [|a b s t Hc _ IH]; simpl; [done|].
    f_equal; [by apply lower_ascii_eq | done].
Qed.

Lemma Name_match_caseless (n : NameT) (text : string) :
  Name_match n text = true <-> caseless text (name n).
Proof.
  unfold Name_match. rewrite bool_decide_eq_true. apply lower_eq_caseless.
Qed.

Lemma candidate_ok_matches scene text e :
  candidate_ok scene text e = true <-> matches scene text e.
Proof.
  unfold candidate_ok, matches, has.
  destruct (component Name scene e) as [n|]; simpl.
  - rewrite Name_match_caseless. split; [by exists n|].
    by intros (n' & [= <-] & H).
  - split; [done|]. by intros (n' & [=] & _).
Qed.

Lemma findByName_find scene text container :
  findByName scene text container = List.find (candidate_ok scene text) container.
Proof. reflexivity. Qed.

Lemma findByName_Some scene text container e :
  findByName scene text container = Some e <->
  exists before after,
    container = before ++ e :: after /\
    matches scene text e /\
    Forall (fun x => ~ matches scene text x) before.
Proof.
  rewrite findByName_find. split.
  - induction container as [|x l IH]; simpl; [done|].
    destruct (candidate_ok scene text x) eqn:Hx.
    + intros [= ->]. exists [], l. split; [done|].
      split; [by apply candidate_ok_matches | constructor].
    + intros (before & after & -> & He & Hbefore)%IH.
      exists (x :: before), after. split; [done|]. split; [done|].
      constructor; [|done].
      rewrite <- candidate_ok_matches. by rewrite Hx.
  - intros (before & after & -> & He & Hbefore).
    induction Hbefore as [|x before Hx _ IH]; simpl.
    + apply candidate_ok_matches in He. by rewrite He.
    + rewrite <- candidate_ok_matches in Hx.
      by destruct (candidate_ok scene text x).
Qed.

Lemma findByName_None scene text container :
  findByName scene text container = None <->
  Forall (fun x => ~ matches scene text x) container.
Proof.
  rewrite findByName_find. induction container as [|x l IH]; simpl.
  - split; [constructor | done].
  - destruct (candidate_ok scene text x) eqn:Hx.
    + split; [done|]. intros [Hn _]%Forall_cons.
      by apply candidate_ok_matches in Hx.
    + rewrite IH. split.
      * intros Hl. constructor; [|done].
        rewrite <- candidate_ok_matches. by rewrite Hx.
      * by intros [_ Hl]%Forall_cons.
Qed.

Lemma findByName_elem_of scene text container e :
  findByName scene text container = Some e -> e ∈ container.
Proof.
  intros (before & after & -> & _)%findByName_Some.
  apply elem_of_app. right. apply elem_of_cons. by left.
Qed.

(** C7. [findByName] returns the first entity of the candidate sequence that
    has a Name whose text equals the given text up to case, passing over the
    entities without Name, and returns [None] exactly when no candidate
    matches; of two different candidates with the same matching Name, the
    later one is not returned on account of its later place: the entity
    returned stands at or before the earlier one, and is the earlier one when
    nothing before it matches. *)
Theorem findByName_first_match (scene : Scene) (text : string) (container : list eid) :
  (forall e,
     findByName scene text container = Some e <->
     exists before after,
       container = before ++ e :: after /\
       matches scene text e /\
       Forall (fun x => ~ matches scene text x) before) /\
  (findByName scene text container = None <->
   Forall (fun x => ~ matches scene text x) container) /\
  (forall x, component Name scene x = None -> findByName scene text container ≠ Some x) /\
  (forall before e1 middle e2 after n,
     container = before ++ e1 :: middle ++ e2 :: after ->
     component Name scene e1 = Some n ->
     component Name scene e2 = Some n ->
     caseless text (name n) ->
     e1 ≠ e2 ->
     e2 ∉ before ->
     exists e, findByName scene text container = Some e /\ e ≠ e2 /\
               e ∈ before ++ [e1] /\
               (Forall (fun x => ~ matches scene text x) before -> e = e1)).
Proof.
  split; [intros e; apply findByName_Some|].
  split; [apply findByName_None|].
  split.
  - intros x Hx (_ & _ & _ & (n & Hn & _) & _)%findByName_Some. congruence.
  - intros before e1 middle e2 after n -> H1 H2 Hn Hne Hnotin.
    assert (Hm1 : matches scene text e1) by (by exists n).
    destruct (findByName scene text (before ++ e1 :: middle ++ e2 :: after))
      as [e|] eqn:Hfind.
    + exists e. split; [done|].
      apply findByName_Some in Hfind as (b' & a' & Heq & He & Hb').
      assert (Hin : e ∈ before ++ [e1]).
      { assert (Hcont : before ++ e1 :: middle ++ e2 :: after =
                        (before ++ [e1]) ++ middle ++ e2 :: after).
        { by rewrite <- app_assoc. }
        destruct (decide (List.length b' <= List.length before)) as [Hle|Hgt].
        - assert (Hl : (before ++ e1 :: middle ++ e2 :: after) !! List.length b' = Some e).
          { rewrite Heq. by apply list_lookup_middle. }
          rewrite Hcont in Hl. rewrite lookup_app_l in Hl.
          + apply list_elem_of_lookup. eauto.
          + rewrite length_app. simpl. lia.
        - exfalso.
          assert (Hl : b' !! List.length before = Some e1).
          { assert (Hl' : (b' ++ e :: a') !! List.length before = Some e1).
            { rewrite <- Heq. by apply list_lookup_middle. }
            rewrite lookup_app_l in Hl' by lia. done. }
          rewrite Forall_forall in Hb'. eapply Hb'; [|exact Hm1].
          apply list_elem_of_lookup. eauto. }
      split; [|split; [done|]].
      * intros ->. apply elem_of_app in Hin as [Hin|Hin]; [done|].
        apply list_elem_of_singleton in Hin. congruence.
      * intros Hnone. apply elem_of_app in Hin as [Hin|Hin].
        -- rewrite Forall_forall in Hnone. by destruct (Hnone e Hin).
        -- by apply list_elem_of_singleton in Hin.
    + exfalso. apply findByName_None in Hfind.
      rewrite Forall_forall in Hfind. eapply Hfind; [|exact Hm1].
      apply elem_of_app. right. apply elem_of_cons. by left.
Qed.

Lemma findByName_first_match_witness :
  findByName world "BOOK" [plant; book; marble; book] = Some book.
Proof.
  apply (proj1 (findByName_first_match world "BOOK" [plant; book; marble; book])).
  exists [plant], [marble; book]. split; [reflexivity|]. split.
  - apply candidate_ok_matches. vm_compute. reflexivity.
  - constructor; [|constructor].
    intros H%candidate_ok_matches. vm_compute in H. discriminate.
Defined.

(** ** Reading components *)

Lemma component_has {A : Type} (kind : Components -> option A) scene e x :
  component kind scene e = Some x -> has scene e kind = true.
Proof. intros H. apply has_true. by exists x. Qed.

Lemma component_get {A : Type} (kind : Components -> option A) scene e x :
  component kind scene e = Some x -> get scene e kind = Ok x.
Proof. apply get_Ok. Qed.

Lemma mapR_returns {A B : Type} (f : A -> result B) (l : list A) :
  Forall (fun x => exists y, f x = Ok y) l -> exists ys, mapR f l = Ok ys.
Proof.
  induction 1 as [|x l [y Hy] _ [ys Hys]]; simpl.
  - by eexists.
  - rewrite Hy. simpl. rewrite Hys. simpl. by eexists.
Qed.

Lemma displaynames_returns scene things :
  Forall (fun e => has scene e Name = true) things ->
  exists names, displaynames scene things = Ok names.
Proof.
  intros H. apply mapR_returns. eapply Forall_impl; [exact H|].
  intros e [n Hn]%has_get. simpl. rewrite Hn. simpl. by eexists.
Qed.

(** ** help *)

(** C10. [help] looks only at whether it got exactly one argument: with one
    argument it returns the help text of that command, or the no-such-command
    message when the help table has no such key; with any other number of
    arguments, none or two or more, it returns the list of the canonical
    command names. *)
Theorem cmdHelp_branches (scene : Scene) (player : eid) (args : list string) :
  (forall cmd, args = [cmd] ->
     cmdHelp scene player args =
       Ok (match Dict.lookup cmd _HELP with
           | Some text => text
           | None => "There is no such command. Try 'help' for a list or commands."
           end, scene)) /\
  (List.length args ≠ 1 -> cmdHelp scene player args = Ok (help_list, scene)) /\
  Dict.keys _HELP = canonical_commands.
Proof.
  split; [|split; [|reflexivity]].
  - intros cmd ->. unfold cmdHelp, Dict.mem, Dict.get.
    by destruct (Dict.lookup cmd _HELP).
  - intros Hlen. destruct args as [|a [|b args]]; simpl in Hlen; try done.
Qed.

Lemma cmdHelp_branches_witness :
  cmdHelp world player ["take"; "book"] = Ok (help_list, world) /\
  cmdHelp world player [] = Ok (help_list, world) /\
  cmdHelp world player ["n"] =
    Ok ("There is no such command. Try 'help' for a list or commands.", world).
Proof.
  split; [|split].
  - apply (proj1 (proj2 (cmdHelp_branches world player ["take"; "book"]))).
    simpl. lia.
  - apply (proj1 (proj2 (cmdHelp_branches world player []))). simpl. lia.
  - apply (proj1 (cmdHelp_branches world player ["n"]) "n"). reflexivity.
Defined.

(** ** look *)

Lemma Forall_filter {A : Type} (f : A -> bool) (l : list A) :
  Forall (fun x => f x = true) (List.filter f l).
Proof.
  apply Forall_forall. intros x Hx%list_elem_of_In.
  by apply filter_In in Hx as [_ Hx].
Qed.

(** Take a hypothesis [H] that a handler returned apart along the path the
    handler took, down to the call it ends with. *)
Ltac path H :=
  repeat
    match type of H with
    | (_ ≫= _) = Ok _ => apply bind_Ok in H; destruct H as (? & ? & H)
    | (if ?b then _ else _) = Ok _ => destruct b eqn:?
    | match ?x with _ => _ end = Ok _ => destruct x eqn:?
    end;
  try discriminate.

(** [look] leaves the scene as it is, with or without arguments. *)
Lemma cmdLook_scene scene player args text scene' :
  cmdLook scene player args = Ok (text, scene') -> scene' = scene.
Proof.
  unfold cmdLook. intros H. path H; by injection H as _ <-.
Qed.

(** Under its preconditions [look] without arguments returns. *)
Lemma cmdLook_returns scene player location :
  has scene player Location = true ->
  has scene player Container = true ->
  component Location scene player = Some location ->
  has scene location Name = true ->
  has scene location Description = true ->
  has scene location Container = true ->
  has scene location Map = true ->
  exists text, cmdLook scene player [] = Ok (text, scene).
Proof.
  intros HpL HpC Hloc HN HD HC HM. unfold cmdLook.
  rewrite HpL, HpC. simpl. rewrite (component_get _ _ _ _ Hloc). simpl.
  rewrite HN, HD, HC, HM. simpl.
  destruct (has_get _ _ _ HC) as [contents ->]. simpl.
  destruct (has_get _ _ _ HN) as [n Hn].
  destruct (has_get _ _ _ HD) as [d Hd].
  destruct (has_get _ _ _ HM) as [m Hm].
  match goal with
  | |- context [mapR ?f ?l] => destruct (mapR_returns f l) as [env ->]
  end.
  { eapply Forall_impl; [apply Forall_filter|]. simpl.
    intros e [He _]%andb_true_iff. by apply has_get. }
  simpl. rewrite Hn. simpl. rewrite Hd. simpl.
  match goal with
  | |- context [displaynames scene ?l] =>
      destruct (displaynames_returns scene l) as [names Hnames]
  end.
  { eapply Forall_impl; [apply Forall_filter|]. simpl.
    intros e [[_ He]%andb_true_iff _]%andb_true_iff. done. }
  match type of Hnames with
  | displaynames _ ?l = _ => destruct l
  end.
  - simpl. rewrite Hm. simpl. by eexists.
  - rewrite Hnames. simpl. rewrite Hm. simpl. by eexists.
Qed.

(** C9. In a scene that meets the preconditions of [look] (the actor has
    Location and Container, the location has Name, Description, Container and
    Map), [look] without arguments returns and leaves the scene unchanged,
    and two calls in a row return the same text. *)
Theorem cmdLook_idempotent (scene : Scene) (player location : eid) :
  has scene player Location = true ->
  has scene player Container = true ->
  component Location scene player = Some location ->
  has scene location Name = true ->
  has scene location Description = true ->
  has scene location Container = true ->
  has scene location Map = true ->
  exists text,
    cmdLook scene player [] = Ok (text, scene) /\
    ('(first, scene1) ← cmdLook scene player [];
     '(second, scene2) ← cmdLook scene1 player [];
     Ok (first, second, scene2)) = Ok (text, text, scene).
Proof.
  intros HpL HpC Hloc HN HD HC HM.
  destruct (cmdLook_returns scene player location) as [text Htext]; try done.
  exists text. split; [done|].
  rewrite Htext. simpl. rewrite Htext. simpl. done.
Qed.

Lemma cmdLook_idempotent_witness :
  exists text,
    cmdLook world player [] = Ok (text, world) /\
    ('(first, scene1) ← cmdLook world player [];
     '(second, scene2) ← cmdLook scene1 player [];
     Ok (first, second, scene2)) = Ok (text, text, world).
Proof.
  apply (cmdLook_idempotent world player livingroom); reflexivity.
Defined.

(** ** go *)

(** C8. [go] without argument returns an error message. With arguments, the
    actor having a Location with a Map, the text of the arguments is expanded
    through the abbreviation table; when the direction is not a key of the
    Map, [go] returns "You cannot go this way." and the scene is unchanged;
    otherwise it is [move(actor, destination)] followed by [look] without
    arguments in the scene [move] leaves. Each of the twenty bare direction
    words is [go] with the full direction name put before its arguments. *)
Theorem cmdGo_contract (scene : Scene) (player : eid) (args : list string) :
  cmdGo scene player [] = Ok ("You have to name a direction to go towards.", scene) /\
  (forall location map,
     args ≠ [] ->
     component Location scene player = Some location ->
     component Map scene location = Some map ->
     cmdGo scene player args =
       match Dict.lookup (expand (join " " args)) map with
       | None => Ok ("You cannot go this way.", scene)
       | Some destination =>
           scene' ← move scene player destination;
           cmdLook scene' player []
       end) /\
  List.map expand ["n"; "s"; "w"; "e"; "nw"; "ne"; "sw"; "se"; "u"; "d"] =
    ["north"; "south"; "west"; "east"; "northwest"; "northeast";
     "southwest"; "southeast"; "up"; "down"] /\
  (forall word full,
     (word, full) ∈ direction_words ->
     expand full = full /\
     exists h : handler,
       Dict.lookup word _COMMANDS = Some h /\
       h scene player args = cmdGo scene player (full :: args)).
Proof.
  split; [reflexivity|]. split; [|split; [reflexivity|]].
  - intros location map Hargs Hloc Hmap.
    destruct args as [|a args]; [done|]. unfold cmdGo.
    generalize (join " " (a :: args)). intros direction.
    rewrite (component_has _ _ _ _ Hloc). simpl.
    rewrite (component_get _ _ _ _ Hloc). simpl.
    rewrite (component_has _ _ _ _ Hmap). simpl.
    rewrite (component_get _ _ _ _ Hmap). simpl.
    assert (Hexp : (if Dict.mem direction expansion
                    then Dict.get direction expansion else Ok direction)
                   = Ok (expand direction)).
    { unfold Dict.mem, Dict.get, expand.
      by destruct (Dict.lookup direction expansion). }
    rewrite Hexp. simpl. unfold Dict.mem, Dict.get.
    by destruct (Dict.lookup (expand direction) map).
  - intros word full Hin. unfold direction_words in Hin.
    repeat (apply elem_of_cons in Hin as [[= -> ->]|Hin];
            [split; [reflexivity|]; eexists; split; reflexivity|]).
    by apply elem_of_nil in Hin.
Qed.

Lemma cmdGo_contract_witness :
  cmdGo world player ["w"] =
    (scene' ← move world player garden; cmdLook scene' player []) /\
  cmdGo world player ["north"; "n"] = Ok ("You cannot go this way.", world).
Proof.
  split.
  - apply (proj1 (proj2 (cmdGo_contract world player ["w"])) livingroom [("west", garden)]);
      [discriminate | reflexivity | reflexivity].
  - apply (proj1 (proj2 (cmdGo_contract world player ["north"; "n"]))
             livingroom [("west", garden)]);
      [discriminate | reflexivity | reflexivity].
Defined.

(** ** take *)

Lemma cmdTake_thing_found scene player text container thing :
  findByName scene text container = Some thing ->
  cmdTake_thing scene player text container =
    if bool_decide (component Location scene thing = Some player)
    then Ok ("You already have that.", scene)
    else if has scene thing Environment
    then Ok ("You are unable to take that.", scene)
    else scene' ← move scene thing player; Ok ("Taken.", scene').
Proof.
  intros Hfind. unfold cmdTake_thing. rewrite Hfind.
  destruct (bool_decide (component Location scene thing = Some player)) eqn:Hl.
  - apply bool_decide_eq_true in Hl.
    by rewrite (component_has _ _ _ _ Hl).
  - by rewrite andb_false_r.
Qed.

Lemma cmdTake_resolved scene player args thing :
  take_resolves scene player args thing ->
  cmdTake scene player args =
    if bool_decide (component Location scene thing = Some player)
    then Ok ("You already have that.", scene)
    else if has scene thing Environment
    then Ok ("You are unable to take that.", scene)
    else scene' ← move scene thing player; Ok ("Taken.", scene').
Proof.
  intros (location & here & inventory & Hargs & Hloc & Hhere & Hinv & Hcase).
  destruct args as [|a args]; [done|]. unfold cmdTake.
  revert Hcase. generalize (join " " (a :: args)). intros line Hcase.
  rewrite (component_has _ _ _ _ Hloc), (component_has _ _ _ _ Hinv). simpl.
  rewrite (component_get _ _ _ _ Hloc). simpl.
  rewrite (component_has _ _ _ _ Hhere). simpl.
  rewrite (component_get _ _ _ _ Hhere). simpl.
  rewrite (component_get _ _ _ _ Hinv). simpl.
  destruct Hcase as [[Hno Hfind]|(Hyes & text & cn & c & members & Hsplit & Hc & Hm & Hfind)].
  - rewrite Hno. by apply cmdTake_thing_found.
  - rewrite Hyes, Hsplit, Hc.
    rewrite (component_has _ _ _ _ Hm). simpl.
    rewrite (component_get _ _ _ _ Hm). simpl.
    by apply cmdTake_thing_found.
Qed.

(** C6. For the thing the take command resolves, the checks being made in
    this order: when its Location is the actor the command returns "You
    already have that."; when it carries Environment the command returns
    "You are unable to take that." (a thing the actor already has was
    answered by the first check); in both cases the scene, so every Container
    and Location, is as before. Only when neither holds is
    [move(thing, actor)] called, and "Taken." returned when it returns. *)
Theorem cmdTake_rejections (scene : Scene) (player : eid) (args : list string)
    (thing : eid) :
  take_resolves scene player args thing ->
  (component Location scene thing = Some player ->
   cmdTake scene player args = Ok ("You already have that.", scene)) /\
  (component Location scene thing ≠ Some player ->
   has scene thing Environment = true ->
   cmdTake scene player args = Ok ("You are unable to take that.", scene)) /\
  (component Location scene thing ≠ Some player ->
   has scene thing Environment = false ->
   cmdTake scene player args =
     (scene' ← move scene thing player; Ok ("Taken.", scene'))) /\
  (forall text scene',
     cmdTake scene player args = Ok (text, scene') ->
     scene' ≠ scene ->
     component Location scene thing ≠ Some player /\
     has scene thing Environment = false /\
     move scene thing player = Ok scene') /\
  (component Location scene thing = Some player \/
   has scene thing Environment = true ->
   exists text,
     cmdTake scene player args = Ok (text, scene) /\
     (text = "You already have that." \/ text = "You are unable to take that.")).
Proof.
  intros Hres. rewrite (cmdTake_resolved _ _ _ _ Hres).
  split; [|split; [|split; [|split]]].
  - intros Hl. by rewrite bool_decide_eq_true_2.
  - intros Hl He. rewrite bool_decide_eq_false_2 by done. by rewrite He.
  - intros Hl He. rewrite bool_decide_eq_false_2 by done. by rewrite He.
  - intros text scene' H Hne. case_bool_decide as Hl.
    { injection H as _ <-. done. }
    destruct (has scene thing Environment).
    { injection H as _ <-. done. }
    apply bind_Ok in H as (s1 & Hmove & [= _ <-]). done.
  - intros Hrej. case_bool_decide as Hl.
    { eexists. split; [done|]. by left. }
    destruct Hrej as [Hl'|He]; [done|]. rewrite He.
    eexists. split; [done|]. by right.
Qed.

Lemma cmdTake_rejections_witness :
  take_resolves world player ["plant"] plant /\
  cmdTake world player ["plant"] = Ok ("You are unable to take that.", world) /\
  take_resolves world player ["die"; "from"; "box"] dice /\
  cmdTake world player ["die"; "from"; "box"] =
    (scene' ← move world dice player; Ok ("Taken.", scene')).
Proof.
  assert (H1 : take_resolves world player ["plant"] plant).
  { exists livingroom, [0; 1; 2; 3; 7; 8; 9; 11], [].
    split; [discriminate|]. repeat (split; [reflexivity|]).
    left. split; reflexivity. }
  assert (H2 : take_resolves world player ["die"; "from"; "box"] dice).
  { exists livingroom, [0; 1; 2; 3; 7; 8; 9; 11], [].
    split; [discriminate|]. repeat (split; [reflexivity|]).
    right. split; [reflexivity|]. exists "die", "box", box, [dice].
    repeat (split; [reflexivity|]). reflexivity. }
  split; [exact H1|]. split; [|split; [exact H2|]].
  - apply (proj1 (proj2 (cmdTake_rejections world player ["plant"] plant H1)));
      [discriminate | reflexivity].
  - apply (proj1 (proj2 (proj2 (cmdTake_rejections world player
                                  ["die"; "from"; "box"] dice H2))));
      [discriminate | reflexivity].
Defined.

(** ** Removing from a list *)

Lemma occurrences_cons x y l :
  occurrences x (y :: l) = ((if decide (y = x) then 1 else 0) + occurrences x l)%nat.
Proof.
  unfold occurrences. simpl. case_bool_decide; case_decide; done.
Qed.

Lemma occurrences_app x l1 l2 :
  occurrences x (l1 ++ l2) = occurrences x l1 + occurrences x l2.
Proof.
  unfold occurrences. by rewrite List.filter_app, length_app.
Qed.

Lemma occurrences_zero x l : occurrences x l = 0 <-> x ∉ l.
Proof.
  induction l as [|y l IH].
  - split; [intros _; apply not_elem_of_nil | done].
  - rewrite occurrences_cons, not_elem_of_cons.
    destruct (decide (y = x)) as [->|Hne].
    + split; [simpl; lia | intros [? _]; done].
    + simpl. rewrite IH. split; [intros ?; split; [congruence|done] | by intros [_ ?]].
Qed.

Lemma occurrences_NoDup x l : NoDup l -> occurrences x l <= 1.
Proof.
  induction 1 as [|y l Hy _ IH]; [unfold occurrences; simpl; lia|].
  rewrite occurrences_cons. destruct (decide (y = x)) as [->|Hne]; [|simpl; lia].
  apply occurrences_zero in Hy. lia.
Qed.

Lemma list_remove_Ok x l l' :
  list_remove x l = Ok l' <->
  exists l1 l2, l = l1 ++ x :: l2 /\ (x ∉ l1) /\ l' = l1 ++ l2.
Proof.
  split.
  - revert l'. induction l as [|y l IH]; intros l'; simpl; [done|].
    case_decide as Hy.
    + intros [= <-]. subst y. exists [], l. split; [done|].
      split; [apply not_elem_of_nil | done].
    + intros (l'' & (l1 & l2 & -> & Hx & ->)%IH & [= <-])%bind_Ok.
      exists (y :: l1), l2. split; [done|]. split; [|done].
      apply not_elem_of_cons. naive_solver.
  - intros (l1 & l2 & -> & Hx & ->).
    induction l1 as [|y l1 IH]; simpl.
    + by rewrite decide_True.
    + apply not_elem_of_cons in Hx as [Hne Hx].
      rewrite decide_False by done. rewrite (IH Hx). done.
Qed.

Lemma list_remove_returns x l : x ∈ l -> exists l', list_remove x l = Ok l'.
Proof.
  induction l as [|y l IH]; [by intros ?%elem_of_nil|].
  intros [->|Hin]%elem_of_cons; simpl.
  - rewrite decide_True by done. by eexists.
  - case_decide; [by eexists|].
    destruct (IH Hin) as [l' ->]. by eexists.
Qed.

Lemma list_remove_other x y l l' :
  list_remove x l = Ok l' -> y ≠ x -> (y ∈ l' <-> y ∈ l).
Proof.
  intros (l1 & l2 & -> & _ & ->)%list_remove_Ok Hne.
  rewrite !elem_of_app, elem_of_cons. tauto.
Qed.

Lemma list_remove_occurrences x l l' :
  list_remove x l = Ok l' -> occurrences x l = S (occurrences x l').
Proof.
  intros (l1 & l2 & -> & _ & ->)%list_remove_Ok.
  rewrite !occurrences_app, occurrences_cons, decide_True by done. lia.
Qed.

Lemma list_remove_NoDup x l l' :
  list_remove x l = Ok l' -> NoDup l -> NoDup l' /\ x ∉ l'.
Proof.
  intros Hrem Hnd. split.
  - apply list_remove_Ok in Hrem as (l1 & l2 & -> & _ & ->).
    apply NoDup_app in Hnd as (H1 & H12 & H2).
    apply NoDup_cons in H2 as [_ H2].
    apply NoDup_app. split; [done|]. split; [|done].
    intros y Hy. specialize (H12 y Hy). rewrite not_elem_of_cons in H12. tauto.
  - apply occurrences_zero. apply list_remove_occurrences in Hrem.
    pose proof (occurrences_NoDup x l Hnd). lia.
Qed.

(** ** move *)

(** The two steps of [move]: the entity is taken off the list of the
    container its Location names, if it has a Location; then its Location is
    set and it is put at the end of the list of the destination. *)
Lemma move_Ok scene entity container scene' :
  move scene entity container = Ok scene' <->
  has scene container Container = true /\
  exists scene1 scene2 members,
    ((component Location scene entity = None /\ scene1 = scene) \/
     (exists location old old',
        component Location scene entity = Some location /\
        component Container scene location = Some old /\
        list_remove entity old = Ok old' /\
        set scene location (CContainer old') = Ok scene1)) /\
    set scene1 entity (CLocation container) = Ok scene2 /\
    component Container scene2 container = Some members /\
    set scene2 container (CContainer (members ++ [entity])) = Ok scene'.
Proof.
  unfold move. split.
  - intros H. apply bind_Ok in H as ([] & Hc%assert_Ok & H). split; [done|].
    apply bind_Ok in H as (s1 & H1 & H).
    apply bind_Ok in H as (s2 & H2 & H).
    apply bind_Ok in H as (members & Hm%get_Ok & H).
    exists s1, s2, members. split; [|done].
    destruct (has scene entity Location) eqn:Hl.
    + right.
      apply bind_Ok in H1 as (location & Hloc%get_Ok & H1).
      apply bind_Ok in H1 as ([] & _ & H1).
      apply bind_Ok in H1 as (old & Hold%get_Ok & H1).
      apply bind_Ok in H1 as (old' & Hrem & H1).
      by exists location, old, old'.
    + left. apply has_false in Hl. by injection H1 as <-.
  - intros (Hc & s1 & s2 & members & H1 & H2 & Hm & H3).
    rewrite Hc. simpl.
    destruct H1 as [[Hl ->]|(location & old & old' & Hl & Hold & Hrem & H1)].
    + apply has_false in Hl. rewrite Hl. simpl. rewrite H2. simpl.
      apply get_Ok in Hm. rewrite Hm. simpl. done.
    + rewrite (component_has _ _ _ _ Hl). rewrite (component_get _ _ _ _ Hl).
      simpl. rewrite (component_has _ _ _ _ Hold). simpl.
      rewrite (component_get _ _ _ _ Hold). simpl. rewrite Hrem. simpl.
      rewrite H1. simpl. rewrite H2. simpl.
      apply get_Ok in Hm. rewrite Hm. simpl. done.
Qed.

(** The Location components after [move]. *)
Lemma move_Location scene entity container scene' x :
  move scene entity container = Ok scene' ->
  component Location scene' x =
    if decide (x = entity) then Some container else component Location scene x.
Proof.
  intros (_ & s1 & s2 & members & H1 & H2 & _ & H3)%move_Ok.
  rewrite (component_set_other Location _ _ _ x _ H3) by done.
  assert (Hs1 : component Location s1 x = component Location scene x).
  { destruct H1 as [[_ ->]|(l & old & old' & _ & _ & _ & H1)]; [done|].
    by rewrite (component_set_other Location _ _ _ x _ H1). }
  destruct (decide (x = entity)) as [->|Hne].
  - by eapply Location_set_Location.
  - by rewrite (component_set_ne Location _ _ _ x _ H2 Hne).
Qed.

(** The Container components after [move]. *)
Lemma move_Container scene entity container scene' x :
  move scene entity container = Ok scene' ->
  component Container scene' x =
    if decide (x = container)
    then members ← taken_off scene entity x; Some (members ++ [entity])
    else taken_off scene entity x.
Proof.
  intros (_ & s1 & s2 & members & H1 & H2 & Hm & H3)%move_Ok.
  assert (Hs1 : forall y, component Container s1 y = taken_off scene entity y).
  { intros y. unfold taken_off.
    destruct H1 as [[-> ->]|(l & old & old' & -> & Hold & Hrem & H1)]; [done|].
    rewrite (component_set Container _ _ _ y _ H1).
    destruct (decide (y = l)) as [->|Hne]; [|done].
    rewrite Hold. simpl. rewrite Hrem.
    apply set_Ok in H1 as (c & -> & _). done. }
  assert (Hs2 : forall y, component Container s2 y = taken_off scene entity y).
  { intros y. rewrite <- Hs1. by apply (component_set_other Container _ _ _ y _ H2). }
  destruct (decide (x = container)) as [->|Hne].
  - rewrite <- Hs2, Hm. simpl. by eapply Container_set_Container.
  - rewrite (component_set_ne Container _ _ _ x _ H3 Hne). apply Hs2.
Qed.

(** [move] leaves the components of every other type alone. *)
Lemma move_other {A : Type} (kind : Components -> option A)
    scene entity container scene' x :
  move scene entity container = Ok scene' ->
  (forall c l, kind (attach (CLocation l) c) = kind c) ->
  (forall c m, kind (attach (CContainer m) c) = kind c) ->
  component kind scene' x = component kind scene x.
Proof.
  intros (_ & s1 & s2 & members & H1 & H2 & _ & H3)%move_Ok HL HC.
  rewrite (component_set_other kind _ _ _ x _ H3) by done.
  rewrite (component_set_other kind _ _ _ x _ H2) by done.
  destruct H1 as [[_ ->]|(l & old & old' & _ & _ & _ & H1)]; [done|].
  by rewrite (component_set_other kind _ _ _ x _ H1).
Qed.

(** [move] returns when the destination has a Container and the entity
    exists and, if it has a Location, is listed in the Container of that
    Location. *)
Lemma move_returns scene entity container :
  has scene container Container = true ->
  is_Some (scene !! entity) ->
  (forall location, component Location scene entity = Some location ->
                    inside scene entity location) ->
  exists scene', move scene entity container = Ok scene'.
Proof.
  intros Hc He Hin.
  assert (H1 : exists s1,
             ((component Location scene entity = None /\ s1 = scene) \/
              (exists location old old',
                 component Location scene entity = Some location /\
                 component Container scene location = Some old /\
                 list_remove entity old = Ok old' /\
                 set scene location (CContainer old') = Ok s1)) /\
             List.length s1 = List.length scene).
  { destruct (component Location scene entity) as [l|] eqn:Hl.
    - destruct (Hin l eq_refl) as (old & Hold & Hmem).
      destruct (list_remove_returns _ _ Hmem) as [old' Hrem].
      destruct (set_returns scene l (CContainer old')) as [s1 Hs1].
      { by eapply component_entity. }
      exists s1. split; [right; by exists l, old, old'|].
      apply set_Ok in Hs1 as (c & _ & ->). apply length_insert.
    - exists scene. split; [by left | done]. }
  destruct H1 as (s1 & H1 & Hlen1).
  destruct (set_returns s1 entity (CLocation container)) as [s2 Hs2].
  { apply lookup_lt_is_Some. rewrite Hlen1. by apply lookup_lt_is_Some. }
  assert (Hm : is_Some (component Container s2 container)).
  { rewrite (component_set_other Container _ _ _ container _ Hs2) by done.
    destruct H1 as [[_ ->]|(l & old & old' & _ & _ & _ & H1)].
    - by apply has_true.
    - rewrite (component_set Container _ _ _ container _ H1).
      case_decide as Hcl.
      + apply set_Ok in H1 as (c & -> & _). by eexists.
      + by apply has_true. }
  destruct Hm as [members Hm].
  destruct (set_returns s2 container (CContainer (members ++ [entity]))) as [s3 Hs3].
  { by eapply component_entity. }
  exists s3. apply move_Ok. split; [done|]. by exists s1, s2, members.
Qed.

Lemma taken_off_cases scene entity container scene' :
  move scene entity container = Ok scene' ->
  (component Location scene entity = None /\
   forall x, taken_off scene entity x = component Container scene x) \/
  (exists location old old',
     component Location scene entity = Some location /\
     component Container scene location = Some old /\
     list_remove entity old = Ok old' /\
     forall x, taken_off scene entity x =
                 if decide (x = location) then Some old'
                 else component Container scene x).
Proof.
  intros (_ & s1 & s2 & members & H1 & _)%move_Ok. unfold taken_off.
  destruct H1 as [[Hl _]|(l & old & old' & Hl & Hold & Hrem & _)].
  - left. by rewrite Hl.
  - right. exists l, old, old'. rewrite Hl. repeat (split; [done|]).
    intros x. case_decide; [|done]. rewrite Hold. simpl. by rewrite Hrem.
Qed.

Lemma inside_move_other scene entity container scene' m x :
  move scene entity container = Ok scene' -> m ≠ entity ->
  (inside scene' m x <-> inside scene m x).
Proof.
  intros Hmove Hne. unfold inside.
  rewrite (move_Container _ _ _ _ x Hmove).
  assert (Hoff : (exists members, taken_off scene entity x = Some members /\ m ∈ members)
                 <-> (exists members, component Container scene x = Some members /\ m ∈ members)).
  { destruct (taken_off_cases _ _ _ _ Hmove)
      as [[_ Hoff]|(l & old & old' & _ & Hold & Hrem & Hoff)];
      rewrite Hoff; [done|].
    destruct (decide (x = l)) as [->|]; [|done]. rewrite Hold.
    split; intros (? & [= <-] & Hin); eexists; (split; [done|]);
      by eapply (list_remove_other _ _ _ _ Hrem). }
  destruct (decide (x = container)) as [->|Hx]; [|done].
  rewrite <- Hoff. destruct (taken_off scene entity container) as [members|]; simpl.
  - split; intros (? & [= <-] & Hin); eexists; (split; [done|]).
    + apply elem_of_app in Hin as [?|Hin%list_elem_of_singleton]; done.
    + apply elem_of_app. by left.
  - split; intros (? & [=] & _).
Qed.

Lemma inside_move_entity scene entity container scene' :
  move scene entity container = Ok scene' -> inside scene' entity container.
Proof.
  intros Hmove. unfold inside.
  rewrite (move_Container _ _ _ _ container Hmove), decide_True by done.
  destruct (taken_off scene entity container) as [members|] eqn:Hoff; simpl.
  - eexists. split; [done|]. apply elem_of_app. right. by apply list_elem_of_singleton.
  - exfalso.
    pose proof Hmove as (Hc & _)%move_Ok. apply has_true in Hc as [dest Hdest].
    destruct (taken_off_cases _ _ _ _ Hmove)
      as [[_ H]|(l & old & old' & _ & _ & _ & H)]; rewrite H in Hoff.
    + congruence.
    + case_decide; congruence.
Qed.

(** After [move], the entity is off the list of the container its Location
    named, when that is not the destination and listed the entity once. *)
Lemma move_leaves_previous scene e c scene' l old :
  move scene e c = Ok scene' ->
  component Location scene e = Some l ->
  component Container scene l = Some old ->
  l ≠ c ->
  occurrences e old <= 1 ->
  ~ inside scene' e l.
Proof.
  intros Hmove Hl Hold Hlc Hocc (members & Hmem & Hin).
  rewrite (move_Container _ _ _ _ l Hmove), decide_False in Hmem by done.
  destruct (taken_off_cases _ _ _ _ Hmove)
    as [[Hnone _]|(l' & old0 & old' & Hl' & Hold' & Hrem & Hoff)];
    [congruence|].
  rewrite Hoff in Hmem. assert (l' = l) as -> by congruence.
  rewrite decide_True in Hmem by done. injection Hmem as <-.
  assert (old0 = old) as -> by congruence.
  apply list_remove_occurrences in Hrem.
  assert (Hz : occurrences e old' = 0) by lia.
  by apply occurrences_zero in Hz.
Qed.

(** After [move], the destination is the only container that lists the
    entity, when before it was listed nowhere but in the container its
    Location named, and at most once there. *)
Lemma move_single_membership scene e c scene' :
  move scene e c = Ok scene' ->
  (forall x, inside scene e x -> component Location scene e = Some x) ->
  (forall l old,
     component Location scene e = Some l ->
     component Container scene l = Some old ->
     occurrences e old <= 1) ->
  forall x, inside scene' e x <-> x = c.
Proof.
  intros Hmove Honly Honce x. split; [|intros ->; by eapply inside_move_entity].
  intros Hin. destruct (decide (x = c)) as [|Hxc]; [done|]. exfalso.
  destruct Hin as (members & Hmem & Hin).
  rewrite (move_Container _ _ _ _ x Hmove), decide_False in Hmem by done.
  destruct (taken_off_cases _ _ _ _ Hmove)
    as [[Hnone Hoff]|(l & old & old' & Hl & Hold & Hrem & Hoff)];
    rewrite Hoff in Hmem.
  - assert (Hx : inside scene e x) by (by exists members).
    apply Honly in Hx. congruence.
  - destruct (decide (x = l)) as [->|Hxl].
    + eapply (move_leaves_previous _ _ _ _ l old Hmove); try done;
        [by eapply Honce|].
      exists members. split; [|done].
      rewrite (move_Container _ _ _ _ l Hmove), decide_False by done.
      by rewrite Hoff, decide_True.
    + assert (Hx : inside scene e x) by (by exists members).
      apply Honly in Hx. congruence.
Qed.

(** C1, as the code has it. After [move(e, c)] returns, [Location(e) == c]
    and [e] is a member of [Container(c)]. If [e] had a Location naming a
    container other than [c] that listed [e] once, [e] is no longer a member
    of that container. If before the call [e] was listed in no Container but
    the one its Location named, and at most once there, then afterwards [c]
    is the only entity whose Container lists [e]. *)
Theorem move_relocates (scene : Scene) (e c : eid) (scene' : Scene) :
  move scene e c = Ok scene' ->
  component Location scene' e = Some c /\
  inside scene' e c /\
  (forall l old,
     component Location scene e = Some l ->
     component Container scene l = Some old ->
     l ≠ c ->
     occurrences e old <= 1 ->
     ~ inside scene' e l) /\
  ((forall x, inside scene e x -> component Location scene e = Some x) ->
   (forall l old,
      component Location scene e = Some l ->
      component Container scene l = Some old ->
      occurrences e old <= 1) ->
   forall x, inside scene' e x <-> x = c).
Proof.
  intros Hmove.
  split; [by rewrite (move_Location _ _ _ _ e Hmove), decide_True|].
  split; [by eapply inside_move_entity|].
  split; [intros l old; by apply move_leaves_previous|].
  by apply move_single_membership.
Qed.

Lemma move_relocates_witness :
  exists scene',
    move world dice player = Ok scene' /\
    component Location scene' dice = Some player /\
    inside scene' dice player /\
    (forall l old,
       component Location world dice = Some l ->
       component Container world l = Some old ->
       l ≠ player ->
       occurrences dice old <= 1 ->
       ~ inside scene' dice l) /\
    ((forall x, inside world dice x -> component Location world dice = Some x) ->
     (forall l old,
        component Location world dice = Some l ->
        component Container world l = Some old ->
        occurrences dice old <= 1) ->
     forall x, inside scene' dice x <-> x = player).
Proof.
  eexists. split; [vm_compute; reflexivity|].
  apply (move_relocates world dice player). vm_compute. reflexivity.
Defined.

Lemma take_book : dispatch world player "take book" = Ok ("Taken.", book_taken).
Proof. vm_compute. reflexivity. Qed.

Lemma player_selected : player ∈ select world Player.
Proof. vm_compute. apply list_elem_of_singleton. reflexivity. Qed.

Lemma book_taken_reachable : reachable book_taken.
Proof.
  eapply reachable_command;
    [apply reachable_start | apply player_selected | apply take_book].
Qed.

(** C1 as stated fails when the destination is the container the entity is
    already in: after [take book], the command [drop book into player] calls
    [move(book, player)] while [Location(book) == player]; the book is taken
    off the player's list and put back on it, so it is still a member of the
    container its previous Location referenced. *)
Lemma move_same_container_counterexample :
  reachable book_taken /\
  has book_taken player Container = true /\
  component Location book_taken book = Some player /\
  dispatch book_taken player "drop book into player" = Ok ("Dropped.", book_put_back) /\
  move book_taken book player = Ok book_put_back /\
  inside book_put_back book player /\
  ~ (forall l, component Location book_taken book = Some l ->
               ~ inside book_put_back book l).
Proof.
  assert (Hin : inside book_put_back book player).
  { exists [book]. split; [reflexivity|]. by apply list_elem_of_singleton. }
  split; [apply book_taken_reachable|].
  split; [reflexivity|]. split; [reflexivity|].
  split; [vm_compute; reflexivity|]. split; [vm_compute; reflexivity|].
  split; [exact Hin|].
  intros H. by apply (H player).
Qed.

(** ** The containment invariant *)

Lemma consistent_world : consistent world.
Proof.
  assert (Hcont : forall c members,
            component Container world c = Some members ->
            (c = livingroom /\ members = [0; 1; 2; 3; 7; 8; 9; 11]) \/
            (c = garden /\ members = [5; 12]) \/
            (c = player /\ members = []) \/
            (c = box /\ members = [10])).
  { intros c members H.
    do 13 (destruct c as [|c];
           [vm_compute in H; first [discriminate H | injection H as <-; tauto]|]).
    vm_compute in H. destruct c; discriminate H. }
  assert (Hin : forall m c, inside world m c ->
            (m, c) ∈ [(0, 4); (1, 4); (2, 4); (3, 4); (7, 4); (8, 4); (9, 4);
                      (11, 4); (5, 6); (12, 6); (10, 9)]).
  { intros m c (members & Hm & Hin).
    destruct (Hcont _ _ Hm) as [[-> ->]|[[-> ->]|[[-> ->]|[-> ->]]]];
      repeat (apply elem_of_cons in Hin as [->|Hin];
              [repeat first [by apply list_elem_of_here | apply list_elem_of_further]|]);
      by apply elem_of_nil in Hin. }
  split.
  - intros c members H.
    destruct (Hcont _ _ H) as [[-> ->]|[[-> ->]|[[-> ->]|[-> ->]]]];
      apply (bool_decide_unpack _); vm_compute; reflexivity.
  - intros m c1 c2 H1%Hin H2%Hin.
    repeat (apply elem_of_cons in H1 as [Heq|H1];
            [injection Heq as -> ->;
             repeat (apply elem_of_cons in H2 as [Heq|H2]; [by simplify_eq|]);
             by apply elem_of_nil in H2|]).
    by apply elem_of_nil in H1.
  - intros e l H.
    do 13 (destruct e as [|e];
           [vm_compute in H;
            first [discriminate H
                  | injection H as <-; eexists; split; [reflexivity|];
                    repeat first [by apply list_elem_of_here
                                 | apply list_elem_of_further]]|]).
    vm_compute in H. destruct e; discriminate H.
  - intros m c H%Hin Hl.
    repeat (apply elem_of_cons in H as [Heq|H];
            [injection Heq as -> ->;
             first [reflexivity | vm_compute in Hl; discriminate Hl]|]).
    by apply elem_of_nil in H.
Qed.

Lemma has_move_Environment scene entity container scene' x :
  move scene entity container = Ok scene' ->
  has scene' x Environment = has scene x Environment.
Proof.
  intros Hmove. unfold has.
  by rewrite (move_other Environment _ _ _ _ x Hmove).
Qed.

(** Moving an entity that has a Location keeps the scene consistent. *)
Lemma consistent_move scene e c scene' :
  consistent scene ->
  is_Some (component Location scene e) ->
  move scene e c = Ok scene' ->
  consistent scene'.
Proof.
  intros [Honce Hsingle Hloc Hscenery] [l Hl] Hmove.
  destruct (taken_off_cases _ _ _ _ Hmove)
    as [[Hnone _]|(l' & old & old' & Hl' & Hold & Hrem & Hoff)];
    [congruence|].
  assert (l' = l) as -> by congruence. clear Hl'.
  destruct (list_remove_NoDup _ _ _ Hrem (Honce _ _ Hold)) as [Hold'_nd Hold'_e].
  assert (Hel : inside scene e l) by (by apply Hloc).
  assert (Honly : forall x, inside scene' e x -> x = c).
  { intros x Hx.
    apply (move_single_membership _ _ _ _ Hmove); [| |done].
    - intros y Hy. by rewrite (Hsingle _ _ _ Hy Hel).
    - intros l0 old0 Hl0 Hold0. apply occurrences_NoDup. by eapply Honce. }
  split.
  - intros x members Hm.
    rewrite (move_Container _ _ _ _ x Hmove), Hoff in Hm.
    assert (Hoff_nd : forall y T,
              (if decide (y = l) then Some old' else component Container scene y)
              = Some T -> NoDup T).
    { intros y T HT. case_decide; [by injection HT as <-|by eapply Honce]. }
    destruct (decide (x = c)) as [->|Hxc]; [|by eapply Hoff_nd].
    destruct (if decide (c = l) then Some old' else component Container scene c)
      as [T|] eqn:HT; [|done].
    injection Hm as <-. apply NoDup_app. split; [by eapply Hoff_nd|].
    split; [|apply NoDup_singleton].
    intros y Hy ->%list_elem_of_singleton.
    destruct (decide (c = l)) as [->|Hcl].
    + by injection HT as <-.
    + apply Hcl. apply (Hsingle e); [by exists T | done].
  - intros m c1 c2 H1 H2. destruct (decide (m = e)) as [->|Hne].
    + by rewrite (Honly _ H1), (Honly _ H2).
    + apply (inside_move_other _ _ _ _ _ _ Hmove Hne) in H1, H2.
      by eapply Hsingle.
  - intros e0 l0 Hl0. rewrite (move_Location _ _ _ _ e0 Hmove) in Hl0.
    destruct (decide (e0 = e)) as [->|Hne].
    + injection Hl0 as <-. by eapply inside_move_entity.
    + apply (inside_move_other _ _ _ _ _ _ Hmove Hne). by apply Hloc.
  - intros m x Hin Hnone. rewrite (move_Location _ _ _ _ m Hmove) in Hnone.
    destruct (decide (m = e)) as [->|Hne]; [done|].
    rewrite (has_move_Environment _ _ _ _ m Hmove).
    apply (inside_move_other _ _ _ _ _ _ Hmove Hne) in Hin.
    by eapply Hscenery.
Qed.

(** ** What a command does to the scene *)

Ltac unchanged H := left; by injection H as _ <-.

Lemma cmdHelp_effect : handler_effect cmdHelp.
Proof. intros s p args t s' H. unfold cmdHelp in H. path H; unchanged H. Qed.

Lemma cmdLook_effect : handler_effect cmdLook.
Proof. intros s p args t s' H. left. by eapply cmdLook_scene. Qed.

Lemma cmdExamine_effect : handler_effect cmdExamine.
Proof.
  intros s p args t s' H. unfold cmdExamine in H. destruct args.
  - unchanged H.
  - by eapply cmdLook_effect.
Qed.

Lemma cmdInventory_effect : handler_effect cmdInventory.
Proof. intros s p args t s' H. unfold cmdInventory in H. path H; unchanged H. Qed.

Lemma cmdRead_effect : handler_effect cmdRead.
Proof. intros s p args t s' H. unfold cmdRead in H. path H; unchanged H. Qed.

Lemma cmdGo_effect : handler_effect cmdGo.
Proof.
  intros s p args t s' H. unfold cmdGo in H. path H; try unchanged H.
  apply cmdLook_scene in H as ->. right.
  match goal with
  | Hm : move s p ?d = Ok _, Hl : assert (has s p Location) = Ok _ |- _ =>
      exists p, d; split; [exact Hm|]; left;
      apply assert_Ok in Hl; by apply has_true
  end.
Qed.

Lemma cmdTake_thing_effect scene player text container t scene' :
  (forall m, m ∈ container -> exists x, inside scene m x) ->
  cmdTake_thing scene player text container = Ok (t, scene') ->
  effect scene scene'.
Proof.
  intros Hin H. unfold cmdTake_thing in H.
  destruct (findByName scene text container) as [thing|] eqn:Hfind;
    [|unchanged H].
  apply findByName_elem_of in Hfind.
  path H; try unchanged H.
  injection H as _ <-. right. eexists thing, player. split; [done|].
  right. split; [done|]. by apply Hin.
Qed.

Lemma inside_app scene a b here inventory m :
  component Container scene a = Some here ->
  component Container scene b = Some inventory ->
  m ∈ here ++ inventory -> exists x, inside scene m x.
Proof.
  intros Ha Hb [H|H]%elem_of_app; [exists a | exists b]; by eexists.
Qed.

Lemma cmdTake_effect : handler_effect cmdTake.
Proof.
  intros s p args t s' H. unfold cmdTake in H.
  destruct args as [|a args]; [unchanged H|].
  revert H. generalize (join " " (a :: args)). intros line H.
  apply bind_Ok in H as ([] & _ & H).
  apply bind_Ok in H as (location & _ & H).
  apply bind_Ok in H as ([] & _ & H).
  apply bind_Ok in H as (here & Hhere%get_Ok & H).
  apply bind_Ok in H as (inventory & Hinv%get_Ok & H).
  destruct (contains " from " line).
  - destruct (split_on " from " line) as [|text [|cn [|? ?]]]; try discriminate.
    destruct (findByName s cn (here ++ inventory)) as [c|]; [|unchanged H].
    destruct (negb (has s c Container)); [unchanged H|].
    apply bind_Ok in H as (members & Hm%get_Ok & H).
    eapply cmdTake_thing_effect; [|exact H].
    intros m Hmem. exists c. by exists members.
  - eapply cmdTake_thing_effect; [|exact H].
    intros m Hmem. exact (inside_app _ _ _ _ _ _ Hhere Hinv Hmem).
Qed.

Lemma cmdDrop_thing_effect scene player location text container t scene' :
  cmdDrop_thing scene player location text container = Ok (t, scene') ->
  effect scene scene'.
Proof.
  intros H. unfold cmdDrop_thing in H. path H; try unchanged H.
  injection H as _ <-. right.
  match goal with
  | Hm : move scene ?e container = Ok _,
    Hl : assert (has scene ?e Location) = Ok _ |- _ =>
      exists e, container; split; [exact Hm|]; left;
      apply assert_Ok in Hl; by apply has_true
  end.
Qed.

Lemma cmdDrop_effect : handler_effect cmdDrop.
Proof.
  intros s p args t s' H. unfold cmdDrop in H.
  destruct args as [|a args]; [unchanged H|].
  revert H. generalize (join " " (a :: args)). intros line H.
  apply bind_Ok in H as ([] & _ & H).
  apply bind_Ok in H as (location & _ & H).
  apply bind_Ok in H as ([] & _ & H).
  destruct (contains " into " line).
  - destruct (split_on " into " line) as [|text [|cn [|? ?]]]; try discriminate.
    apply bind_Ok in H as (inventory & _ & H).
    apply bind_Ok in H as (here & _ & H).
    destruct (findByName s cn (inventory ++ here)) as [c|]; [|unchanged H].
    destruct (negb (has s c Container)); [unchanged H|].
    by eapply cmdDrop_thing_effect.
  - by eapply cmdDrop_thing_effect.
Qed.

Lemma commands_effect : Forall (fun entry => handler_effect entry.2) _COMMANDS.
Proof.
  unfold _COMMANDS.
  repeat (apply Forall_cons; split;
          [first [ apply cmdHelp_effect | apply cmdLook_effect
                 | apply cmdExamine_effect | apply cmdGo_effect
                 | apply cmdInventory_effect | apply cmdTake_effect
                 | apply cmdDrop_effect | apply cmdRead_effect
                 | intros ? ? ? ? ? H; exact (cmdGo_effect _ _ _ _ _ H) ]|]).
  constructor.
Qed.

Lemma Dict_lookup_elem_of {V : Type} (k : string) (v : V) (d : Dict.t V) :
  Dict.lookup k d = Some v -> (k, v) ∈ d.
Proof.
  induction d as [|[k' v'] d IH]; simpl; [done|].
  case_decide as Hk.
  - intros [= ->]. subst k'. apply list_elem_of_here.
  - intros H. apply list_elem_of_further. by apply IH.
Qed.

(** How [dispatch] goes once the line has a first token. *)
Lemma dispatch_tokens scene eid line cmd args :
  split (lower line) = cmd :: args ->
  dispatch scene eid line =
    match Dict.lookup cmd _COMMANDS with
    | Some h => h scene eid args
    | None => Ok (unknown_command, scene)
    end.
Proof.
  intros Hsplit. unfold dispatch. rewrite Hsplit.
  unfold Dict.mem, Dict.get. by destruct (Dict.lookup cmd _COMMANDS).
Qed.

Lemma dispatch_effect scene eid line text scene' :
  dispatch scene eid line = Ok (text, scene') -> effect scene scene'.
Proof.
  intros H. unfold dispatch in H.
  destruct (split (lower line)) as [|cmd args]; [done|].
  destruct (Dict.mem cmd _COMMANDS); [|unchanged H].
  apply bind_Ok in H as (h & Hh%Dict_get_Ok%Dict_lookup_elem_of & H).
  pose proof commands_effect as Hall. rewrite Forall_forall in Hall.
  by apply (Hall _ Hh) in H.
Qed.

Lemma consistent_effect scene scene' :
  consistent scene -> effect scene scene' -> consistent scene'.
Proof.
  intros Hc [->|(e & c & Hmove & He)]; [done|].
  eapply consistent_move; [done| |done].
  destruct He as [He|(Henv & x & Hx)]; [done|].
  destruct (component Location scene e) eqn:Hl; [by eexists|].
  rewrite (members_scenery _ Hc _ _ Hx Hl) in Henv. done.
Qed.

Lemma reachable_consistent scene : reachable scene -> consistent scene.
Proof.
  induction 1 as [|scene eid line text scene' _ IH _ Hstep].
  - apply consistent_world.
  - eapply consistent_effect; [exact IH|]. by eapply dispatch_effect.
Qed.

(** C2 as stated fails in the world [main] sets up: the plant is a member of
    the living room's Container and carries no Location component. *)
Lemma scenery_without_location_counterexample :
  reachable world /\
  component Container world livingroom = Some [0; 1; 2; 3; 7; 8; 9; 11] /\
  plant ∈ [0; 1; 2; 3; 7; 8; 9; 11] /\
  has world plant Location = false /\
  ~ (forall c members m,
       component Container world c = Some members -> m ∈ members ->
       component Location world m = Some c).
Proof.
  split; [apply reachable_start|]. split; [reflexivity|].
  split; [apply list_elem_of_here|]. split; [reflexivity|].
  intros H. specialize (H livingroom _ plant eq_refl (list_elem_of_here _ _)).
  vm_compute in H. discriminate H.
Qed.

(** C2, as the code has it. In the world [main] sets up and in every scene
    reached from it by commands, for every entity [c] with a Container, every
    member [m] of [Container(c)] either has [Location(m) == c] or has no
    Location and is scenery carrying Environment; [m] is a member of no other
    entity's Container, and is listed once in [Container(c)]. *)
Theorem reachable_containment (scene : Scene) :
  reachable scene ->
  forall c members m,
    component Container scene c = Some members ->
    m ∈ members ->
    (component Location scene m = Some c \/
     (component Location scene m = None /\ has scene m Environment = true)) /\
    (forall c', inside scene m c' -> c' = c) /\
    occurrences m members = 1.
Proof.
  intros Hc%reachable_consistent c members m Hm Hin.
  assert (Hmc : inside scene m c) by (by exists members).
  split; [|split].
  - destruct (component Location scene m) as [l|] eqn:Hl.
    + left. f_equal. eapply members_single; [done| |done].
      by eapply location_inside.
    + right. split; [done|]. by eapply members_scenery.
  - intros c' Hc'. by eapply members_single.
  - pose proof (occurrences_NoDup m members (members_once _ Hc _ _ Hm)).
    destruct (occurrences m members) eqn:Hocc; [|lia].
    by apply occurrences_zero in Hocc.
Qed.

Lemma reachable_containment_witness :
  (component Location book_taken book = Some player \/
   (component Location book_taken book = None /\
    has book_taken book Environment = true)) /\
  (forall c', inside book_taken book c' -> c' = player) /\
  occurrences book [book] = 1.
Proof.
  apply (reachable_containment book_taken book_taken_reachable player [book] book).
  - reflexivity.
  - apply list_elem_of_here.
Defined.

(** ** Lines that make the command system raise *)

Lemma lower_ascii_space (c : ascii) :
  is_space c = true -> lower_ascii c = c.
Proof.
  unfold is_space, lower_ascii, is_upper. intros H.
  destruct (65 <=? nat_of_ascii c) eqn:Hlo; [|done].
  apply Nat.leb_le in Hlo.
  apply orb_true_iff in H as [H|H];
    apply andb_true_iff in H as [_ H%Nat.leb_le]; lia.
Qed.

Lemma split_blank (line : string) : blank line = true -> split (lower line) = [].
Proof.
  unfold split. induction line as [|c line IH]; simpl; [done|].
  intros [Hc Hline]%andb_true_iff.
  rewrite (lower_ascii_space c Hc), Hc. simpl. by apply IH.
Qed.

(** A line without any token makes [dispatch] raise, whatever the scene. *)
Lemma dispatch_blank_raises scene eid line :
  blank line = true -> dispatch scene eid line = Raise ValueError.
Proof. intros H. unfold dispatch. by rewrite (split_blank line H). Qed.

(** Whenever the text of the arguments holds [" from "] and is not cut into
    exactly two pieces, [cmdTake] raises. *)
Lemma cmdTake_pieces_raises scene player args location here inventory :
  args ≠ [] ->
  component Location scene player = Some location ->
  component Container scene location = Some here ->
  component Container scene player = Some inventory ->
  contains " from " (join " " args) = true ->
  List.length (split_on " from " (join " " args)) ≠ 2 ->
  cmdTake scene player args = Raise ValueError.
Proof.
  intros Hargs Hloc Hhere Hinv. destruct args as [|a args]; [done|].
  unfold cmdTake. generalize (join " " (a :: args)). intros line Hyes Hlen.
  rewrite (component_has _ _ _ _ Hloc), (component_has _ _ _ _ Hinv). simpl.
  rewrite (component_get _ _ _ _ Hloc). simpl.
  rewrite (component_has _ _ _ _ Hhere). simpl.
  rewrite (component_get _ _ _ _ Hhere). simpl.
  rewrite (component_get _ _ _ _ Hinv). simpl.
  rewrite Hyes.
  by destruct (split_on " from " line) as [|? [|? [|? ?]]].
Qed.

(** C4, on the code: not every input line gets a response text. On the empty
    line [cmd, *args = ...] has nothing to unpack and [onUpdate] raises
    [ValueError]; in the world of [main] the line [drop plant] resolves the
    plant, which has no Location, and the assertion in [cmdDrop] raises
    [AssertionError]. A line whose first token is not a command does get the
    fixed message. *)
Theorem dispatch_raises :
  dispatch world player "" = Raise ValueError /\
  onUpdate world [""] = Raise ValueError /\
  dispatch world player "drop plant" = Raise AssertionError /\
  dispatch world player "dance" = Ok (unknown_command, world).
Proof. repeat split; vm_compute; reflexivity. Qed.

(** C5, on the code: with two separate occurrences of [" from "] the text is
    cut at both, the three pieces do not fit the two names, and [cmdTake]
    raises [ValueError] instead of returning a response text. *)
Theorem cmdTake_two_from_raises :
  contains " from " (join " " ["die"; "from"; "box"; "from"; "box"]) = true /\
  split_on " from " (join " " ["die"; "from"; "box"; "from"; "box"]) =
    ["die"; "box"; "box"] /\
  cmdTake world player ["die"; "from"; "box"; "from"; "box"] = Raise ValueError /\
  dispatch world player "take die from box from box" = Raise ValueError.
Proof. repeat split; vm_compute; reflexivity. Qed.

(** * Further properties of the helpers and the commands *)

(** ** maplink: outcome, frame, linking back *)

Lemma set_length scene e comp scene' :
  set scene e comp = Ok scene' -> List.length scene' = List.length scene.
Proof. intros (c & _ & ->)%set_Ok. apply length_insert. Qed.

(** Setting the component an entity already has changes nothing. *)
Lemma set_same scene e comp c :
  scene !! e = Some c -> attach comp c = c -> set scene e comp = Ok scene.
Proof.
  intros Hc Hsame. unfold set. rewrite Hc, Hsame. f_equal.
  by apply list_insert_id.
Qed.

Lemma attach_Map_same c m : Map c = Some m -> attach (CMap m) c = c.
Proof. destruct c; simpl. by intros ->. Qed.

Lemma Dict_set_same {V : Type} (k : string) (v : V) (d : Dict.t V) :
  Dict.lookup k d = Some v -> Dict.set k v d = d.
Proof.
  induction d as [|[k' v'] d IH]; simpl; [done|].
  case_decide as Hk.
  - intros [= ->]. by subst k'.
  - intros H. by rewrite (IH H).
Qed.

(** The steps of [maplink] when it returns. *)
Lemma maplink_Ok scene a d b scene' :
  maplink scene a d b = Ok scene' <->
  exists back m scene1 m1,
    Dict.lookup d reversemap = Some back /\
    component Map scene a = Some m /\
    has scene b Map = true /\
    set scene a (CMap (Dict.set d b m)) = Ok scene1 /\
    component Map scene1 b = Some m1 /\
    set scene1 b (CMap (Dict.set back a m1)) = Ok scene'.
Proof.
  unfold maplink. split.
  - intros H.
    apply bind_Ok in H as ([] & Hd%assert_Ok%Dict_mem_true & H).
    apply bind_Ok in H as ([] & Ha%assert_Ok & H).
    apply bind_Ok in H as ([] & Hb%assert_Ok & H).
    apply bind_Ok in H as (m & Hm%get_Ok & H).
    apply bind_Ok in H as (s1 & Hs1 & H).
    apply bind_Ok in H as (m1 & Hm1%get_Ok & H).
    apply bind_Ok in H as (back & Hback%Dict_get_Ok & H).
    by exists back, m, s1, m1.
  - intros (back & m & s1 & m1 & Hback & Hm & Hb & Hs1 & Hm1 & Hs2).
    rewrite (proj2 (Dict_mem_true d reversemap)) by (by eexists).
    rewrite (component_has _ _ _ _ Hm), Hb. simpl.
    rewrite (component_get _ _ _ _ Hm). simpl. rewrite Hs1. simpl.
    rewrite (component_get _ _ _ _ Hm1). simpl.
    rewrite (proj2 (Dict_get_Ok _ _ _) Hback). simpl. done.
Qed.

Lemma maplink_returns scene a d b :
  Dict.mem d reversemap = true ->
  has scene a Map = true ->
  has scene b Map = true ->
  exists scene', maplink scene a d b = Ok scene'.
Proof.
  intros [back Hback]%Dict_mem_true [m Hm]%has_true Hb.
  destruct (set_returns scene a (CMap (Dict.set d b m))) as [s1 Hs1].
  { by eapply component_entity. }
  assert (Hb1 : is_Some (component Map s1 b)).
  { rewrite (component_set Map _ _ _ b _ Hs1). case_decide as Hba.
    - apply set_Ok in Hs1 as (c & -> & _). by eexists.
    - by apply has_true. }
  destruct Hb1 as [m1 Hm1].
  destruct (set_returns s1 b (CMap (Dict.set back a m1))) as [s2 Hs2].
  { by eapply component_entity. }
  exists s2. apply maplink_Ok. by exists back, m, s1, m1.
Qed.

(** The two edges after [maplink]. *)
Lemma maplink_edges scene a d b scene' :
  maplink scene a d b = Ok scene' ->
  exists back ma mb,
    Dict.lookup d reversemap = Some back /\
    component Map scene' a = Some ma /\ Dict.lookup d ma = Some b /\
    component Map scene' b = Some mb /\ Dict.lookup back mb = Some a.
Proof.
  intros (back & m & s1 & m1 & Hback & Hm & Hb & Hs1 & Hm1 & Hs2)%maplink_Ok.
  destruct (reversemap_pairs _ _ Hback) as [Hne _].
  assert (Hb' : component Map scene' b = Some (Dict.set back a m1))
    by (by eapply Map_set_Map).
  exists back.
  exists (if decide (a = b) then Dict.set back a m1 else Dict.set d b m).
  exists (Dict.set back a m1).
  split; [done|]. split; [|split; [|split; [done|apply Dict_lookup_set_eq]]].
  - destruct (decide (a = b)) as [->|Hab]; [done|].
    rewrite (component_set_ne Map _ _ _ a _ Hs2 Hab). by eapply Map_set_Map.
  - destruct (decide (a = b)) as [->|Hab]; [|apply Dict_lookup_set_eq].
    rewrite Dict_lookup_set_ne by done.
    rewrite (Map_set_Map _ _ _ _ Hs1) in Hm1. injection Hm1 as <-.
    apply Dict_lookup_set_eq.
Qed.

(** X1. [maplink] returns exactly when the direction is a key of the
    opposite table and both rooms have a Map; otherwise it raises
    [AssertionError], and it raises nothing else. *)
Theorem maplink_outcome (scene : Scene) (a b : eid) (d : string) :
  ((Dict.mem d reversemap && has scene a Map && has scene b Map = true) <->
   exists scene', maplink scene a d b = Ok scene') /\
  (forall e, maplink scene a d b = Raise e -> e = AssertionError).
Proof.
  split; [split|].
  - intros [[Hd Ha]%andb_true_iff Hb]%andb_true_iff. by apply maplink_returns.
  - intros [scene' (back & m & s1 & m1 & Hback & Hm & Hb & _)%maplink_Ok].
    rewrite (proj2 (Dict_mem_true d reversemap)) by (by eexists).
    by rewrite (component_has _ _ _ _ Hm), Hb.
  - intros e H.
    destruct (Dict.mem d reversemap) eqn:Hd;
      [|unfold maplink in H; rewrite Hd in H; by injection H as <-].
    destruct (has scene a Map) eqn:Ha;
      [|unfold maplink in H; rewrite Hd, Ha in H; by injection H as <-].
    destruct (has scene b Map) eqn:Hb;
      [|unfold maplink in H; rewrite Hd, Ha, Hb in H; by injection H as <-].
    destruct (maplink_returns scene a d b Hd Ha Hb) as [s' Hs']. congruence.
Qed.

(** X2. [maplink] writes two edges and nothing else: the scene keeps its
    entities, every component that is not a Map stays as it was, the same
    entities have a Map, and every edge other than [d] of the source and the
    opposite direction of the destination is as before. *)
Theorem maplink_frame (scene : Scene) (a b : eid) (d : string) (scene' : Scene) :
  maplink scene a d b = Ok scene' ->
  List.length scene' = List.length scene /\
  (forall x,
     component Player scene' x = component Player scene x /\
     component Name scene' x = component Name scene x /\
     component Description scene' x = component Description scene x /\
     component Inscription scene' x = component Inscription scene x /\
     component Location scene' x = component Location scene x /\
     component Container scene' x = component Container scene x /\
     component Environment scene' x = component Environment scene x /\
     has scene' x Map = has scene x Map) /\
  (forall x m m' back k,
     Dict.lookup d reversemap = Some back ->
     component Map scene x = Some m ->
     component Map scene' x = Some m' ->
     ~ (x = a /\ k = d) ->
     ~ (x = b /\ k = back) ->
     Dict.lookup k m' = Dict.lookup k m).
Proof.
  intros (back & m & s1 & m1 & Hback & Hm & Hb & Hs1 & Hm1 & Hs2)%maplink_Ok.
  split; [by rewrite (set_length _ _ _ _ Hs2), (set_length _ _ _ _ Hs1)|].
  split.
  - intros x.
    repeat (split;
            [by rewrite (component_set_other _ _ _ _ x _ Hs2),
                        (component_set_other _ _ _ _ x _ Hs1)|]).
    unfold has.
    rewrite (component_set Map _ _ _ x _ Hs2), (component_set Map _ _ _ x _ Hs1).
    destruct (decide (x = b)) as [->|Hxb].
    + apply set_Ok in Hs2 as (c & -> & _). simpl.
      apply has_true in Hb as [? ->]. done.
    + destruct (decide (x = a)) as [->|Hxa]; [|done].
      apply set_Ok in Hs1 as (c & Hc & _). rewrite Hc, Hm. done.
  - intros x mx mx' back' k Hback' Hx Hx' Hnota Hnotb.
    assert (back' = back) as -> by congruence.
    assert (H1 : forall y my, component Map scene y = Some my ->
              exists my1, component Map s1 y = Some my1 /\
                forall k0, ~ (y = a /\ k0 = d) ->
                           Dict.lookup k0 my1 = Dict.lookup k0 my).
    { intros y my Hy. destruct (decide (y = a)) as [->|Hya].
      - exists (Dict.set d b m). split; [by eapply Map_set_Map|].
        intros k0 Hk0. assert (my = m) as -> by congruence.
        apply Dict_lookup_set_ne. intros <-. by apply Hk0.
      - exists my. by rewrite (component_set_ne Map _ _ _ y _ Hs1 Hya). }
    destruct (H1 x mx Hx) as (mx1 & Hx1 & Hsame1).
    rewrite <- (Hsame1 k Hnota).
    destruct (decide (x = b)) as [->|Hxb].
    + rewrite (Map_set_Map _ _ _ _ Hs2) in Hx'. injection Hx' as <-.
      assert (mx1 = m1) as -> by congruence.
      apply Dict_lookup_set_ne. intros <-. by apply Hnotb.
    + rewrite (component_set_ne Map _ _ _ x _ Hs2 Hxb) in Hx'. congruence.
Qed.

Lemma maplink_frame_witness :
  exists scene',
    maplink world garden "up" livingroom = Ok scene' /\
    List.length scene' = List.length world /\
    component Container scene' livingroom = component Container world livingroom.
Proof.
  destruct (maplink_returns world garden "up" livingroom) as [scene' H];
    [reflexivity..|].
  exists scene'. split; [exact H|].
  destruct (maplink_frame world garden livingroom "up" scene' H) as (Hlen & Hc & _).
  split; [exact Hlen|]. apply (Hc livingroom).
Defined.

(** X3. Linking back is already done: after [maplink(a, d, b)], the call
    [maplink(b, opposite(d), a)] returns and leaves the scene as it is. *)
Theorem maplink_back_again (scene : Scene) (a b : eid) (d back : string)
    (scene' : Scene) :
  maplink scene a d b = Ok scene' ->
  Dict.lookup d reversemap = Some back ->
  maplink scene' b back a = Ok scene'.
Proof.
  intros Hlink Hback.
  destruct (maplink_edges _ _ _ _ _ Hlink)
    as (back' & ma & mb & Hback' & Ha & Hda & Hb & Hbb).
  assert (back' = back) as -> by congruence.
  destruct (reversemap_pairs _ _ Hback) as [_ Hd].
  assert (Hcb : exists cb, scene' !! b = Some cb /\ Map cb = Some mb).
  { unfold component in Hb. destruct (scene' !! b) as [cb|]; [|done]. by exists cb. }
  assert (Hca : exists ca, scene' !! a = Some ca /\ Map ca = Some ma).
  { unfold component in Ha. destruct (scene' !! a) as [ca|]; [|done]. by exists ca. }
  destruct Hcb as (cb & Hcb & Hmb). destruct Hca as (ca & Hca & Hma).
  apply maplink_Ok. exists d, mb, scene', ma. split; [done|]. split; [done|].
  split; [by eapply component_has|].
  rewrite (Dict_set_same _ _ _ Hbb), (Dict_set_same _ _ _ Hda).
  split; [apply (set_same _ _ _ cb Hcb); by apply attach_Map_same|].
  split; [done|].
  apply (set_same _ _ _ ca Hca). by apply attach_Map_same.
Qed.

Lemma maplink_back_again_witness :
  exists scene',
    maplink world livingroom "north" garden = Ok scene' /\
    maplink scene' garden "south" livingroom = Ok scene'.
Proof.
  destruct (maplink_returns world livingroom "north" garden) as [scene' H];
    [reflexivity..|].
  exists scene'. split; [exact H|].
  apply (maplink_back_again world livingroom garden "north" "south" scene' H).
  reflexivity.
Defined.

(** ** move: outcome, frame, there and back *)

Lemma list_remove_Raise x l e :
  list_remove x l = Raise e -> e = ValueError /\ x ∉ l.
Proof.
  induction l as [|y l IH]; simpl.
  - intros [= <-]. split; [done|apply not_elem_of_nil].
  - case_decide as Hy; [done|].
    destruct (list_remove x l) as [l'|e'] eqn:Hrem; simpl; [done|].
    intros [= <-]. destruct (IH eq_refl) as [-> Hx]. split; [done|].
    apply not_elem_of_cons. split; [congruence|done].
Qed.

Lemma list_remove_app_last x l : x ∉ l -> list_remove x (l ++ [x]) = Ok l.
Proof.
  intros Hx. apply list_remove_Ok. exists l, []. split; [done|].
  split; [done|]. by rewrite app_nil_r.
Qed.

Lemma move_length scene e c scene' :
  move scene e c = Ok scene' -> List.length scene' = List.length scene.
Proof.
  intros (_ & s1 & s2 & members & H1 & H2 & _ & H3)%move_Ok.
  rewrite (set_length _ _ _ _ H3), (set_length _ _ _ _ H2).
  destruct H1 as [[_ ->]|(l & old & old' & _ & _ & _ & H1)]; [done|].
  by apply set_length in H1.
Qed.

(** X4. For an entity of the scene, [move(e, c)] returns exactly when [c] has
    a Container and [e], if it has a Location, is listed in the Container of
    that Location. It raises [AssertionError] when [c], or the entity the
    Location of [e] names, has no Container, [ValueError] when that
    Container does not list [e], and nothing else. *)
Theorem move_outcome (scene : Scene) (e c : eid) :
  is_Some (scene !! e) ->
  match move scene e c with
  | Ok _ =>
      has scene c Container = true /\
      forall l, component Location scene e = Some l -> inside scene e l
  | Raise AssertionError =>
      has scene c Container = false \/
      exists l, component Location scene e = Some l /\
                has scene l Container = false
  | Raise ValueError =>
      has scene c Container = true /\
      exists l old, component Location scene e = Some l /\
                    component Container scene l = Some old /\ e ∉ old
  | Raise _ => False
  end.
Proof.
  intros He.
  destruct (has scene c Container) eqn:Hc;
    [|unfold move; rewrite Hc; simpl; by left].
  destruct (component Location scene e) as [l|] eqn:Hl.
  - destruct (component Container scene l) as [old|] eqn:Hold.
    + destruct (list_remove e old) as [old'|ex] eqn:Hrem.
      * assert (Hin : inside scene e l).
        { exists old. split; [done|].
          apply list_remove_Ok in Hrem as (l1 & l2 & -> & _).
          apply elem_of_app. right. apply list_elem_of_here. }
        destruct (move_returns scene e c Hc He) as [s' Hs'].
        { intros l' Hl'. by assert (l' = l) as -> by congruence. }
        rewrite Hs'. split; [done|]. by intros l' [= <-].
      * destruct (list_remove_Raise _ _ _ Hrem) as [-> Hnot].
        unfold move. rewrite Hc, (component_has _ _ _ _ Hl). simpl.
        rewrite (component_get _ _ _ _ Hl). simpl.
        rewrite (component_has _ _ _ _ Hold). simpl.
        rewrite (component_get _ _ _ _ Hold). simpl. rewrite Hrem. simpl.
        split; [done|]. by exists l, old.
    + unfold move. rewrite Hc, (component_has _ _ _ _ Hl). simpl.
      rewrite (component_get _ _ _ _ Hl). simpl.
      rewrite (proj2 (has_false _ _ _) Hold). simpl.
      right. exists l. split; [done|]. by apply has_false.
  - destruct (move_returns scene e c Hc He) as [s' Hs']; [intros l; congruence|].
    rewrite Hs'. split; [done|]. by intros l [=].
Qed.

Lemma move_outcome_witness :
  match move world dice garden with
  | Ok _ =>
      has world garden Container = true /\
      forall l, component Location world dice = Some l -> inside world dice l
  | Raise AssertionError =>
      has world garden Container = false \/
      exists l, component Location world dice = Some l /\
                has world l Container = false
  | Raise ValueError =>
      has world garden Container = true /\
      exists l old, component Location world dice = Some l /\
                    component Container world l = Some old /\ dice ∉ old
  | Raise _ => False
  end.
Proof.
  apply (move_outcome world dice garden). vm_compute. by eexists.
Defined.

(** X5. [move(e, c)] touches the Location of [e] and the member lists of two
    containers, and nothing else: the scene keeps its entities, every
    component that is not a Location or a Container stays as it was, every
    other entity keeps its Location and its memberships, and the list of a
    container that is neither [c] nor the one [e] was in is unchanged. *)
Theorem move_frame (scene : Scene) (e c : eid) (scene' : Scene) :
  move scene e c = Ok scene' ->
  List.length scene' = List.length scene /\
  (forall x,
     component Player scene' x = component Player scene x /\
     component Name scene' x = component Name scene x /\
     component Description scene' x = component Description scene x /\
     component Inscription scene' x = component Inscription scene x /\
     component Map scene' x = component Map scene x /\
     component Environment scene' x = component Environment scene x) /\
  (forall x, x ≠ e -> component Location scene' x = component Location scene x) /\
  (forall m x, m ≠ e -> (inside scene' m x <-> inside scene m x)) /\
  (forall x, x ≠ c -> component Location scene e ≠ Some x ->
             component Container scene' x = component Container scene x) /\
  (forall x, has scene' x Container = has scene x Container).
Proof.
  intros Hmove. split; [by eapply move_length|]. split.
  { intros x. repeat split; by apply (move_other _ _ _ _ _ _ Hmove). }
  split.
  { intros x Hx. by rewrite (move_Location _ _ _ _ x Hmove), decide_False. }
  split; [intros m x Hm; by eapply inside_move_other|].
  assert (Hoff : forall x, component Location scene e ≠ Some x ->
            taken_off scene e x = component Container scene x).
  { intros x Hx. unfold taken_off.
    destruct (component Location scene e) as [l|]; [|done].
    rewrite decide_False; [done|congruence]. }
  split.
  - intros x Hxc Hxl.
    rewrite (move_Container _ _ _ _ x Hmove), decide_False by done.
    by apply Hoff.
  - intros x. unfold has. rewrite (move_Container _ _ _ _ x Hmove).
    assert (Hsome : is_Some (taken_off scene e x)
                    <-> is_Some (component Container scene x)).
    { destruct (taken_off_cases _ _ _ _ Hmove)
        as [[_ H]|(l & old & old' & _ & Hold & _ & H)]; rewrite H; [done|].
      case_decide as Hx; [subst x|done]. rewrite Hold.
      split; intros _; by eexists. }
    destruct (taken_off scene e x) as [t|] eqn:Ht;
      destruct (component Container scene x) as [k|] eqn:Hk;
      try (case_decide; done).
    + destruct (proj1 Hsome) as [? [=]]. by eexists.
    + destruct (proj2 Hsome) as [? [=]]. by eexists.
Qed.

Lemma move_frame_witness :
  exists scene',
    move world dice player = Ok scene' /\
    List.length scene' = List.length world /\
    component Container scene' livingroom = component Container world livingroom.
Proof.
  destruct (move_returns world dice player) as [scene' H].
  - reflexivity.
  - vm_compute. by eexists.
  - intros l [= <-]. exists [dice]. split; [reflexivity|apply list_elem_of_here].
  - exists scene'. split; [exact H|].
    destruct (move_frame world dice player scene' H) as (Hlen & _ & _ & _ & Hc & _).
    split; [exact Hlen|]. apply (Hc livingroom); vm_compute; discriminate.
Defined.

(** X6. There and back: when [e] is in the container [l] and is moved to
    another container [c] that does not list it, [move(e, l)] then returns
    and undoes the first move but for the order of [l]: every Location and
    every member list is as at the start, except that [e] now stands at the
    end of the list of [l]. *)
Theorem move_there_and_back (scene : Scene) (e l c : eid)
    (old dest : list eid) (scene1 : Scene) :
  component Location scene e = Some l ->
  component Container scene l = Some old ->
  component Container scene c = Some dest ->
  l ≠ c ->
  e ∉ dest ->
  move scene e c = Ok scene1 ->
  exists scene2 old',
    move scene1 e l = Ok scene2 /\
    list_remove e old = Ok old' /\
    (forall x, component Location scene2 x = component Location scene x) /\
    (forall x, component Container scene2 x =
                 if decide (x = l) then Some (old' ++ [e])
                 else component Container scene x).
Proof.
  intros Hl Hold Hdest Hlc Hnot Hmove.
  destruct (taken_off_cases _ _ _ _ Hmove)
    as [[Hnone _]|(l' & old0 & old' & Hl' & Hold' & Hrem & Hoff)];
    [congruence|].
  assert (l' = l) as -> by congruence. assert (old0 = old) as -> by congruence.
  assert (H1c : component Container scene1 c = Some (dest ++ [e])).
  { rewrite (move_Container _ _ _ _ c Hmove), decide_True by done.
    rewrite Hoff, decide_False by done. by rewrite Hdest. }
  assert (H1l : component Container scene1 l = Some old').
  { rewrite (move_Container _ _ _ _ l Hmove), decide_False by done.
    by rewrite Hoff, decide_True. }
  assert (H1e : component Location scene1 e = Some c).
  { by rewrite (move_Location _ _ _ _ e Hmove), decide_True. }
  destruct (move_returns scene1 e l) as [scene2 Hback].
  { by eapply component_has. }
  { by eapply component_entity. }
  { intros x Hx. assert (x = c) as -> by congruence.
    exists (dest ++ [e]). split; [done|].
    apply elem_of_app. right. apply list_elem_of_here. }
  exists scene2, old'. split; [done|]. split; [done|]. split.
  - intros x. rewrite (move_Location _ _ _ _ x Hback).
    destruct (decide (x = e)) as [->|Hx]; [done|].
    by rewrite (move_Location _ _ _ _ x Hmove), decide_False.
  - intros x. rewrite (move_Container _ _ _ _ x Hback).
    assert (Hoff2 : forall y, taken_off scene1 e y =
              if decide (y = c) then Some dest else component Container scene1 y).
    { intros y. unfold taken_off. rewrite H1e. case_decide; [|done].
      rewrite H1c. simpl. by rewrite (list_remove_app_last _ _ Hnot). }
    rewrite Hoff2. destruct (decide (x = l)) as [->|Hxl].
    + rewrite decide_False by done. by rewrite H1l.
    + destruct (decide (x = c)) as [->|Hxc]; [done|].
      rewrite (move_Container _ _ _ _ x Hmove), decide_False by done.
      by rewrite Hoff, decide_False.
Qed.

Lemma move_there_and_back_witness :
  exists scene1 scene2 old',
    move world dice player = Ok scene1 /\
    move scene1 dice box = Ok scene2 /\
    list_remove dice [dice] = Ok old' /\
    (forall x, component Location scene2 x = component Location world x) /\
    (forall x, component Container scene2 x =
                 if decide (x = box) then Some (old' ++ [dice])
                 else component Container world x).
Proof.
  destruct (move_returns world dice player) as [scene1 H].
  - reflexivity.
  - vm_compute. by eexists.
  - intros l [= <-]. exists [dice]. split; [reflexivity|apply list_elem_of_here].
  - exists scene1.
    destruct (move_there_and_back world dice box player [dice] [] scene1)
      as (scene2 & old' & H2 & Hrem & HL & HC);
      [reflexivity | reflexivity | reflexivity | discriminate
      | apply not_elem_of_nil | exact H |].
    by exists scene2, old'.
Defined.

(** ** What play never changes *)

Lemma select_ext {A : Type} (kind : Components -> option A) (s1 s2 : Scene) :
  List.length s1 = List.length s2 ->
  (forall x, component kind s1 x = component kind s2 x) ->
  select s1 kind = select s2 kind.
Proof.
  intros Hlen Hkind. unfold select. rewrite Hlen.
  apply List.filter_ext. intros x. unfold has. by rewrite Hkind.
Qed.

(** The part of a scene that no command writes. *)
Lemma effect_static scene scene' :
  effect scene scene' ->
  List.length scene' = List.length scene /\
  forall x,
    component Player scene' x = component Player scene x /\
    component Name scene' x = component Name scene x /\
    component Description scene' x = component Description scene x /\
    component Inscription scene' x = component Inscription scene x /\
    component Map scene' x = component Map scene x /\
    component Environment scene' x = component Environment scene x.
Proof.
  intros [->|(e & c & Hmove & _)]; [done|].
  split; [by eapply move_length|].
  intros x. repeat split; by apply (move_other _ _ _ _ _ _ Hmove).
Qed.

(** X7. Play creates and destroys no entity and writes only Location and
    Container: in every scene reached from the world of [main] by commands,
    the entities are those of the world, each with the Player tag, Name,
    Description, Inscription, Map and Environment it had at the start; so the
    commands are always read for the one player entity. *)
Theorem reachable_static (scene : Scene) :
  reachable scene ->
  List.length scene = List.length world /\
  (forall x,
     component Player scene x = component Player world x /\
     component Name scene x = component Name world x /\
     component Description scene x = component Description world x /\
     component Inscription scene x = component Inscription world x /\
     component Map scene x = component Map world x /\
     component Environment scene x = component Environment world x) /\
  select scene Player = [player].
Proof.
  intros Hreach.
  assert (H : List.length scene = List.length world /\
              forall x,
                component Player scene x = component Player world x /\
                component Name scene x = component Name world x /\
                component Description scene x = component Description world x /\
                component Inscription scene x = component Inscription world x /\
                component Map scene x = component Map world x /\
                component Environment scene x = component Environment world x).
  { induction Hreach as [|scene eid line text scene' _ [IHlen IH] _ Hstep];
      [done|].
    apply dispatch_effect, effect_static in Hstep as [Hlen Hsame].
    split; [congruence|]. intros x.
    destruct (Hsame x) as (H1 & H2 & H3 & H4 & H5 & H6).
    destruct (IH x) as (I1 & I2 & I3 & I4 & I5 & I6).
    repeat split; congruence. }
  destruct H as [Hlen Hsame]. split; [done|]. split; [done|].
  rewrite (select_ext Player scene world Hlen); [reflexivity|].
  intros x. apply (Hsame x).
Qed.

Lemma reachable_static_witness :
  List.length book_taken = List.length world /\
  (forall x,
     component Player book_taken x = component Player world x /\
     component Name book_taken x = component Name world x /\
     component Description book_taken x = component Description world x /\
     component Inscription book_taken x = component Inscription world x /\
     component Map book_taken x = component Map world x /\
     component Environment book_taken x = component Environment world x) /\
  select book_taken Player = [player].
Proof. apply (reachable_static book_taken book_taken_reachable). Defined.

(** X8. In every scene reached from the world of [main] by commands, the
    Location of an entity names an entity that has a Container, and that
    Container lists the entity; so [move] of an entity of the scene into an
    entity with a Container always returns: neither its assertion on the old
    container nor the removal from the old list fails. *)
Theorem reachable_locations (scene : Scene) :
  reachable scene ->
  (forall e l, component Location scene e = Some l ->
               has scene l Container = true /\ inside scene e l) /\
  (forall e c, is_Some (scene !! e) -> has scene c Container = true ->
               exists scene', move scene e c = Ok scene').
Proof.
  intros Hc%reachable_consistent.
  assert (Hin : forall e l, component Location scene e = Some l -> inside scene e l).
  { intros e l. by apply location_inside. }
  split.
  - intros e l Hl. destruct (Hin e l Hl) as (members & Hm & Hmem).
    split; [by eapply component_has | by exists members].
  - intros e c He Hcont. apply move_returns; [done|done|]. intros l. apply Hin.
Qed.

Lemma reachable_locations_witness :
  (forall e l, component Location book_taken e = Some l ->
               has book_taken l Container = true /\ inside book_taken e l) /\
  (forall e c, is_Some (book_taken !! e) -> has book_taken c Container = true ->
               exists scene', move book_taken e c = Ok scene').
Proof. apply (reachable_locations book_taken book_taken_reachable). Defined.

(** ** The commands that only read *)

Lemma cmdHelp_scene scene player args text scene' :
  cmdHelp scene player args = Ok (text, scene') -> scene' = scene.
Proof. unfold cmdHelp. intros H. path H; by injection H as _ <-. Qed.

Lemma cmdExamine_scene scene player args text scene' :
  cmdExamine scene player args = Ok (text, scene') -> scene' = scene.
Proof.
  unfold cmdExamine. destruct args; [by intros [= _ <-]|]. apply cmdLook_scene.
Qed.

Lemma cmdInventory_scene scene player args text scene' :
  cmdInventory scene player args = Ok (text, scene') -> scene' = scene.
Proof. unfold cmdInventory. intros H. path H; by injection H as _ <-. Qed.

Lemma cmdRead_scene scene player args text scene' :
  cmdRead scene player args = Ok (text, scene') -> scene' = scene.
Proof. unfold cmdRead. intros H. path H; by injection H as _ <-. Qed.

(** X9. Only [go], the twenty direction words, [take] and [drop] can change
    the scene: when a line is answered and the scene is not as before, the
    first token of the line is one of these words. Every other line, a known
    command or not, leaves the scene as it is. *)
Theorem dispatch_changes_scene (scene : Scene) (eid : eid) (line : string)
    (text : string) (scene' : Scene) :
  dispatch scene eid line = Ok (text, scene') ->
  scene' ≠ scene ->
  exists cmd args, split (lower line) = cmd :: args /\ cmd ∈ moving_words.
Proof.
  intros H Hne. unfold dispatch in H.
  destruct (split (lower line)) as [|cmd args]; [done|].
  exists cmd, args. split; [done|].
  destruct (decide (cmd ∈ moving_words)) as [|Hnot]; [done|]. exfalso.
  apply Hne. clear Hne.
  destruct (Dict.mem cmd _COMMANDS); [|by injection H as _ <-].
  apply bind_Ok in H as (h & Hh%Dict_get_Ok & H).
  unfold _COMMANDS in Hh. simpl in Hh.
  repeat (case_decide as Hk;
          [subst cmd; injection Hh as <-;
           first [ by eapply cmdHelp_scene | by eapply cmdLook_scene
                 | by eapply cmdExamine_scene | by eapply cmdInventory_scene
                 | by eapply cmdRead_scene
                 | exfalso; apply Hnot; unfold moving_words; simpl;
                   repeat first [apply list_elem_of_here | apply list_elem_of_further] ]
          |clear Hk]).
  done.
Qed.

Lemma dispatch_changes_scene_witness :
  exists cmd args,
    split (lower "Take Book") = cmd :: args /\ cmd ∈ moving_words.
Proof.
  apply (dispatch_changes_scene world player "Take Book" "Taken." book_taken).
  - vm_compute. reflexivity.
  - vm_compute. discriminate.
Defined.

(** X10. Commands are read without regard to case: two lines that are equal
    up to the case of their letters get the same answer and leave the same
    scene. *)
Theorem dispatch_caseless (scene : Scene) (eid : eid) (line1 line2 : string) :
  caseless line1 line2 ->
  dispatch scene eid line1 = dispatch scene eid line2.
Proof.
  intros H%lower_eq_caseless. unfold dispatch. by rewrite H.
Qed.

Lemma dispatch_caseless_witness :
  dispatch world player "LOOK" = dispatch world player "look".
Proof.
  apply (dispatch_caseless world player "LOOK" "look").
  apply lower_eq_caseless. reflexivity.
Defined.

(** ** onStart and onUpdate *)

Lemma onStart_loop_looks players scene texts scene' :
  onStart_loop players scene = Ok (texts, scene') ->
  scene' = scene /\
  Forall2 (fun eid text => dispatch scene eid "look" = Ok (text, scene))
          players texts.
Proof.
  revert texts scene'. induction players as [|eid players IH];
    intros texts scene' H; simpl in H.
  - injection H as <- <-. split; [done|constructor].
  - change (Dict.get "look" _COMMANDS) with (Ok cmdLook) in H. simpl in H.
    apply bind_Ok in H as ([text s1] & Hlook & H).
    apply bind_Ok in H as ([texts' s2] & Hrest & H).
    injection H as <- <-.
    pose proof (cmdLook_scene _ _ _ _ _ Hlook) as ->.
    destruct (IH _ _ Hrest) as [-> Hall]. split; [done|].
    constructor; [exact Hlook | done].
Qed.

(** X11. [onStart] prints, for each player entity in turn, exactly the answer
    the command [look] would get, and leaves the scene as it is. *)
Theorem onStart_looks (scene : Scene) (texts : list string) (scene' : Scene) :
  onStart scene = Ok (texts, scene') ->
  scene' = scene /\
  Forall2 (fun eid text => dispatch scene eid "look" = Ok (text, scene))
          (select scene Player) texts.
Proof. apply onStart_loop_looks. Qed.

Lemma onStart_looks_witness :
  exists texts,
    onStart world = Ok (texts, world) /\
    Forall2 (fun eid text => dispatch world eid "look" = Ok (text, world))
            (select world Player) texts.
Proof.
  destruct (onStart world) as [[texts scene']|] eqn:H;
    [|vm_compute in H; discriminate H].
  destruct (onStart_looks world texts scene' H) as [-> Hall].
  by exists texts.
Defined.

Lemma onUpdate_loop_reads players scene inputs texts rest scene' :
  reachable scene ->
  Forall (fun eid => has scene eid Player = true) players ->
  onUpdate_loop players scene inputs = Ok (texts, rest, scene') ->
  reachable scene' /\
  exists used,
    inputs = used ++ rest /\
    List.length used = List.length players /\
    List.length texts = 2 * List.length players /\
    tick players scene used texts scene'.
Proof.
  revert scene inputs texts rest scene'.
  induction players as [|eid players IH];
    intros scene inputs texts rest scene' Hreach Hplayers H; simpl in H.
  - injection H as <- <- <-. split; [done|]. exists [].
    repeat split; constructor.
  - destruct inputs as [|line inputs]; [done|].
    apply bind_Ok in H as ([text s1] & Hstep & H).
    apply bind_Ok in H as ([[texts' rest'] s2] & Hrest & H).
    injection H as <- <- <-.
    apply Forall_cons in Hplayers as [Heid Hplayers].
    assert (Hreach1 : reachable s1).
    { eapply reachable_command; [exact Hreach| |exact Hstep].
      unfold select. apply list_elem_of_In, filter_In. split; [|done].
      apply in_seq. split; [lia|]. simpl.
      apply has_true in Heid as [? Heid].
      apply component_entity in Heid. by apply lookup_lt_is_Some. }
    destruct (IH s1 inputs texts' rest' s2 Hreach1)
      as (Hreach2 & used & -> & Hlen & Htexts & Htick); [|done|].
    { pose proof (dispatch_effect _ _ _ _ _ Hstep) as [_ Hsame]%effect_static.
      eapply Forall_impl; [exact Hplayers|]. intros x Hx. simpl in Hx.
      unfold has in *. by rewrite (proj1 (Hsame x)). }
    split; [done|]. exists (line :: used). split; [done|].
    split; [simpl; lia|]. split; [simpl; lia|].
    by eapply tick_player.
Qed.

(** X12. One tick of [onUpdate] in a scene of the game that returns has read
    one line for every player entity, in order, each answered by [dispatch]
    in the scene the line before has left, and has printed for each an empty
    line and then that answer; the scene it leaves is again a scene of the
    game. *)
Theorem onUpdate_reads (scene : Scene) (inputs texts rest : list string)
    (scene' : Scene) :
  reachable scene ->
  onUpdate scene inputs = Ok (texts, rest, scene') ->
  reachable scene' /\
  exists used,
    inputs = used ++ rest /\
    List.length used = List.length (select scene Player) /\
    List.length texts = 2 * List.length (select scene Player) /\
    tick (select scene Player) scene used texts scene'.
Proof.
  intros Hreach H. eapply onUpdate_loop_reads; [done| |exact H].
  unfold select. apply Forall_filter.
Qed.

Lemma onUpdate_reads_witness :
  onUpdate world ["take book"; "look"] = Ok ([""; "Taken."], ["look"], book_taken) /\
  reachable book_taken /\
  exists used,
    ["take book"; "look"] = used ++ ["look"] /\
    List.length used = List.length (select world Player) /\
    List.length [""; "Taken."] = 2 * List.length (select world Player) /\
    tick (select world Player) world used [""; "Taken."] book_taken.
Proof.
  assert (H : onUpdate world ["take book"; "look"]
              = Ok ([""; "Taken."], ["look"], book_taken)).
  { vm_compute. reflexivity. }
  split; [exact H|].
  apply (onUpdate_reads world _ _ _ _ reachable_start H).
Defined.

(** ** drop *)

Lemma cmdDrop_thing_found scene player location text container here inventory thing :
  component Container scene player = Some inventory ->
  component Container scene location = Some here ->
  findByName scene text (inventory ++ here) = Some thing ->
  cmdDrop_thing scene player location text container =
    match component Location scene thing with
    | None => Raise AssertionError
    | Some l =>
        if bool_decide (l ≠ player) then Ok ("You do not have that.", scene)
        else if bool_decide (thing = container)
        then Ok ("You cannot do that.", scene)
        else scene' ← move scene thing container; Ok ("Dropped.", scene')
    end.
Proof.
  intros Hinv Hhere Hfind. unfold cmdDrop_thing.
  rewrite (component_get _ _ _ _ Hinv). simpl.
  rewrite (component_get _ _ _ _ Hhere). simpl. rewrite Hfind.
  destruct (component Location scene thing) as [l|] eqn:Hl.
  - rewrite (component_has _ _ _ _ Hl). simpl.
    rewrite (component_get _ _ _ _ Hl). simpl. done.
  - by rewrite (proj2 (has_false _ _ _) Hl).
Qed.

Lemma cmdDrop_resolved scene player args thing container :
  drop_resolves scene player args thing container ->
  cmdDrop scene player args =
    match component Location scene thing with
    | None => Raise AssertionError
    | Some l =>
        if bool_decide (l ≠ player) then Ok ("You do not have that.", scene)
        else if bool_decide (thing = container)
        then Ok ("You cannot do that.", scene)
        else scene' ← move scene thing container; Ok ("Dropped.", scene')
    end.
Proof.
  intros (location & here & inventory & Hargs & Hloc & Hhere & Hinv & Hcase).
  destruct args as [|a args]; [done|]. unfold cmdDrop.
  revert Hcase. generalize (join " " (a :: args)). intros line Hcase.
  rewrite (component_has _ _ _ _ Hloc), (component_has _ _ _ _ Hinv). simpl.
  rewrite (component_get _ _ _ _ Hloc). simpl.
  rewrite (component_has _ _ _ _ Hhere). simpl.
  destruct Hcase as [(Hno & -> & Hfind)|(Hyes & text & cn & Hsplit & Hc & Hhas & Hfind)].
  - rewrite Hno. by eapply cmdDrop_thing_found.
  - rewrite Hyes, Hsplit.
    rewrite (component_get _ _ _ _ Hinv). simpl.
    rewrite (component_get _ _ _ _ Hhere). simpl.
    rewrite Hc, Hhas. simpl. by eapply cmdDrop_thing_found.
Qed.

(** X14. For the thing and the container the drop command resolves: a thing
    without Location makes the assertion fail; a thing whose Location is not
    the actor gets "You do not have that."; a thing that is the container
    itself gets "You cannot do that."; in these cases the scene is as
    before. Otherwise the command is [move(thing, container)], answers
    "Dropped." when that returns, and the thing then has the container as its
    Location and is a member of its Container. *)
Theorem cmdDrop_contract (scene : Scene) (player : eid) (args : list string)
    (thing container : eid) :
  drop_resolves scene player args thing container ->
  (component Location scene thing = None ->
   cmdDrop scene player args = Raise AssertionError) /\
  (forall l, component Location scene thing = Some l -> l ≠ player ->
   cmdDrop scene player args = Ok ("You do not have that.", scene)) /\
  (component Location scene thing = Some player -> thing = container ->
   cmdDrop scene player args = Ok ("You cannot do that.", scene)) /\
  (component Location scene thing = Some player -> thing ≠ container ->
   cmdDrop scene player args =
     (scene' ← move scene thing container; Ok ("Dropped.", scene'))) /\
  (forall text scene',
     cmdDrop scene player args = Ok (text, scene') ->
     scene' ≠ scene ->
     text = "Dropped." /\
     component Location scene thing = Some player /\
     component Location scene' thing = Some container /\
     inside scene' thing container).
Proof.
  intros Hres. rewrite (cmdDrop_resolved _ _ _ _ _ Hres).
  split; [|split; [|split; [|split]]].
  - by intros ->.
  - intros l -> Hl. by rewrite bool_decide_eq_true_2.
  - intros -> Heq. rewrite bool_decide_eq_false_2 by (by intros ?).
    by rewrite bool_decide_eq_true_2.
  - intros -> Hne. rewrite bool_decide_eq_false_2 by (by intros ?).
    by rewrite bool_decide_eq_false_2.
  - intros text scene' H Hne.
    destruct (component Location scene thing) as [l|]; [|done].
    case_bool_decide as Hl; [by injection H as _ <-|].
    case_bool_decide as Hc; [by injection H as _ <-|].
    apply bind_Ok in H as (s1 & Hmove & [= <- <-]).
    split; [done|]. split; [by destruct (decide (l = player)) as [->|?]|].
    split; [by rewrite (move_Location _ _ _ _ thing Hmove), decide_True|].
    by eapply inside_move_entity.
Qed.

Lemma cmdDrop_contract_witness :
  drop_resolves book_taken player ["book"; "into"; "box"] book box /\
  cmdDrop book_taken player ["book"; "into"; "box"] =
    (scene' ← move book_taken book box; Ok ("Dropped.", scene')).
Proof.
  assert (H : drop_resolves book_taken player ["book"; "into"; "box"] book box).
  { exists livingroom, [0; 1; 2; 3; 7; 9; 11], [8].
    split; [discriminate|]. repeat (split; [reflexivity|]).
    right. split; [reflexivity|]. exists "book", "box".
    repeat (split; [reflexivity|]). reflexivity. }
  split; [exact H|].
  apply (proj1 (proj2 (proj2 (proj2
           (cmdDrop_contract book_taken player ["book"; "into"; "box"] book box H)))));
    [reflexivity | discriminate].
Defined.

(** ** findByName over two lists *)

Lemma findByName_first_match_app scene text l1 l2 :
  findByName scene text (l1 ++ l2) = first_match scene text l1 l2.
Proof.
  unfold first_match. rewrite !findByName_find.
  induction l1 as [|x l1 IH]; simpl; [done|].
  by destruct (candidate_ok scene text x).
Qed.

(** [look] with arguments searches the contents of the location, then the
    inventory. *)
Lemma cmdLook_searches scene player location here inventory args :
  args ≠ [] ->
  component Location scene player = Some location ->
  component Container scene location = Some here ->
  component Container scene player = Some inventory ->
  cmdLook scene player args =
    match first_match scene (join " " args) here inventory with
    | None => Ok ("There is no such thing.", scene)
    | Some thing => look_thing scene thing
    end.
Proof.
  intros Hargs Hloc Hhere Hinv. destruct args as [|a args]; [done|].
  unfold cmdLook. generalize (join " " (a :: args)). intros line.
  rewrite (component_has _ _ _ _ Hloc), (component_has _ _ _ _ Hinv). simpl.
  rewrite (component_get _ _ _ _ Hloc). simpl.
  rewrite (component_get _ _ _ _ Hhere). simpl.
  rewrite (component_get _ _ _ _ Hinv). simpl.
  rewrite findByName_first_match_app.
  by destruct (first_match scene line here inventory).
Qed.

(** [read] searches the inventory, then the contents of the location. *)
Lemma cmdRead_searches scene player location here inventory args :
  args ≠ [] ->
  component Location scene player = Some location ->
  component Container scene location = Some here ->
  component Container scene player = Some inventory ->
  cmdRead scene player args =
    match first_match scene (join " " args) inventory here with
    | None => Ok ("There is no such thing.", scene)
    | Some thing =>
        match component Inscription scene thing with
        | None => Ok ("There is nothing to read.", scene)
        | Some text => Ok ("It says: '" +:+ text +:+ "'", scene)
        end
    end.
Proof.
  intros Hargs Hloc Hhere Hinv. destruct args as [|a args]; [done|].
  unfold cmdRead. generalize (join " " (a :: args)). intros line.
  rewrite (component_has _ _ _ _ Hloc), (component_has _ _ _ _ Hinv). simpl.
  rewrite (component_get _ _ _ _ Hloc). simpl.
  rewrite (component_has _ _ _ _ Hhere). simpl.
  rewrite (component_get _ _ _ _ Hinv). simpl.
  rewrite (component_get _ _ _ _ Hhere). simpl.
  rewrite findByName_first_match_app.
  destruct (first_match scene line inventory here) as [thing|]; [|done].
  unfold has, get. by destruct (component Inscription scene thing).
Qed.

(** [take] without clause searches the contents of the location, then the
    inventory. *)
Lemma cmdTake_searches scene player location here inventory args :
  args ≠ [] ->
  component Location scene player = Some location ->
  component Container scene location = Some here ->
  component Container scene player = Some inventory ->
  contains " from " (join " " args) = false ->
  cmdTake scene player args =
    match first_match scene (join " " args) here inventory with
    | None => Ok ("There is no such thing.", scene)
    | Some thing =>
        if bool_decide (component Location scene thing = Some player)
        then Ok ("You already have that.", scene)
        else if has scene thing Environment
        then Ok ("You are unable to take that.", scene)
        else scene' ← move scene thing player; Ok ("Taken.", scene')
    end.
Proof.
  intros Hargs Hloc Hhere Hinv. destruct args as [|a args]; [done|].
  unfold cmdTake. generalize (join " " (a :: args)). intros line Hno.
  rewrite (component_has _ _ _ _ Hloc), (component_has _ _ _ _ Hinv). simpl.
  rewrite (component_get _ _ _ _ Hloc). simpl.
  rewrite (component_has _ _ _ _ Hhere). simpl.
  rewrite (component_get _ _ _ _ Hhere). simpl.
  rewrite (component_get _ _ _ _ Hinv). simpl. rewrite Hno.
  rewrite <- findByName_first_match_app.
  destruct (findByName scene line (here ++ inventory)) as [thing|] eqn:Hfind.
  - by apply cmdTake_thing_found.
  - unfold cmdTake_thing. by rewrite Hfind.
Qed.

(** [drop] without clause searches the inventory, then the contents of the
    location. *)
Lemma cmdDrop_searches scene player location here inventory args :
  args ≠ [] ->
  component Location scene player = Some location ->
  component Container scene location = Some here ->
  component Container scene player = Some inventory ->
  contains " into " (join " " args) = false ->
  cmdDrop scene player args =
    match first_match scene (join " " args) inventory here with
    | None => Ok ("There is no such thing.", scene)
    | Some thing =>
        match component Location scene thing with
        | None => Raise AssertionError
        | Some l =>
            if bool_decide (l ≠ player) then Ok ("You do not have that.", scene)
            else if bool_decide (thing = location)
            then Ok ("You cannot do that.", scene)
            else scene' ← move scene thing location; Ok ("Dropped.", scene')
        end
    end.
Proof.
  intros Hargs Hloc Hhere Hinv. destruct args as [|a args]; [done|].
  unfold cmdDrop. generalize (join " " (a :: args)). intros line Hno.
  rewrite (component_has _ _ _ _ Hloc), (component_has _ _ _ _ Hinv). simpl.
  rewrite (component_get _ _ _ _ Hloc). simpl.
  rewrite (component_has _ _ _ _ Hhere). simpl. rewrite Hno.
  rewrite <- findByName_first_match_app.
  destruct (findByName scene line (inventory ++ here)) as [thing|] eqn:Hfind.
  - by eapply cmdDrop_thing_found.
  - unfold cmdDrop_thing.
    rewrite (component_get _ _ _ _ Hinv). simpl.
    rewrite (component_get _ _ _ _ Hhere). simpl. by rewrite Hfind.
Qed.

(** X13. Over two lists put one after the other [findByName] takes the match
    of the first list when it has one and only else searches the second,
    and the text asked for is compared without regard to case. The call
    sites put the lists in this order: [look] with arguments and [take]
    without clause search the contents of the location and then the
    inventory; [drop] without clause and [read] search the inventory and
    then the contents of the location. *)
Theorem findByName_app (scene : Scene) (text : string) (l1 l2 : list eid) :
  findByName scene text (l1 ++ l2) =
    match findByName scene text l1 with
    | Some e => Some e
    | None => findByName scene text l2
    end /\
  (forall text', caseless text text' ->
                 findByName scene text' (l1 ++ l2) = findByName scene text (l1 ++ l2)) /\
  (forall player location args,
     args ≠ [] ->
     component Location scene player = Some location ->
     component Container scene location = Some l1 ->
     component Container scene player = Some l2 ->
     cmdLook scene player args =
       match first_match scene (join " " args) l1 l2 with
       | None => Ok ("There is no such thing.", scene)
       | Some thing => look_thing scene thing
       end /\
     cmdRead scene player args =
       match first_match scene (join " " args) l2 l1 with
       | None => Ok ("There is no such thing.", scene)
       | Some thing =>
           match component Inscription scene thing with
           | None => Ok ("There is nothing to read.", scene)
           | Some inscription => Ok ("It says: '" +:+ inscription +:+ "'", scene)
           end
       end /\
     (contains " from " (join " " args) = false ->
      cmdTake scene player args =
        match first_match scene (join " " args) l1 l2 with
        | None => Ok ("There is no such thing.", scene)
        | Some thing =>
            if bool_decide (component Location scene thing = Some player)
            then Ok ("You already have that.", scene)
            else if has scene thing Environment
            then Ok ("You are unable to take that.", scene)
            else scene' ← move scene thing player; Ok ("Taken.", scene')
        end) /\
     (contains " into " (join " " args) = false ->
      cmdDrop scene player args =
        match first_match scene (join " " args) l2 l1 with
        | None => Ok ("There is no such thing.", scene)
        | Some thing =>
            match component Location scene thing with
            | None => Raise AssertionError
            | Some l =>
                if bool_decide (l ≠ player)
                then Ok ("You do not have that.", scene)
                else if bool_decide (thing = location)
                then Ok ("You cannot do that.", scene)
                else scene' ← move scene thing location; Ok ("Dropped.", scene')
            end
        end)).
Proof.
  split; [apply findByName_first_match_app|]. split.
  - intros text' Hcase%lower_eq_caseless. rewrite !findByName_find.
    assert (Hsame : forall x, candidate_ok scene text' x = candidate_ok scene text x).
    { intros x. unfold candidate_ok, Name_match. by rewrite Hcase. }
    induction (l1 ++ l2) as [|x l IH]; simpl; [done|].
    rewrite Hsame. by destruct (candidate_ok scene text x).
  - intros player location args Hargs Hloc Hhere Hinv.
    split; [by eapply cmdLook_searches|].
    split; [by eapply cmdRead_searches|].
    split; [by eapply cmdTake_searches|by eapply cmdDrop_searches].
Qed.

Lemma findByName_app_witness :
  findByName world "BOX" ([plant; box] ++ [book]) =
    findByName world "box" ([plant; box] ++ [book]) /\
  cmdRead book_taken player ["book"] =
    match first_match book_taken (join " " ["book"]) [book]
            [plant; picture; window; rug; player; box; marble] with
    | None => Ok ("There is no such thing.", book_taken)
    | Some thing =>
        match component Inscription book_taken thing with
        | None => Ok ("There is nothing to read.", book_taken)
        | Some inscription => Ok ("It says: '" +:+ inscription +:+ "'", book_taken)
        end
    end.
Proof.
  split.
  - apply (proj1 (proj2 (findByName_app world "box" [plant; box] [book])) "BOX").
    apply lower_eq_caseless. reflexivity.
  - apply (proj2 (proj2 (findByName_app book_taken ""
                               [plant; picture; window; rug; player; box; marble]
                               [book]))
             player livingroom ["book"]);
      [discriminate | reflexivity | reflexivity | reflexivity].
Defined.

(** ** look: when it returns *)

(** X15. [look] without arguments returns exactly when its assertions hold;
    when one does not hold it raises [AssertionError] and nothing else. *)
Theorem cmdLook_outcome (scene : Scene) (player : eid) :
  if look_ready scene player
  then exists text, cmdLook scene player [] = Ok (text, scene)
  else cmdLook scene player [] = Raise AssertionError.
Proof.
  unfold look_ready.
  destruct (has scene player Location) eqn:HpL;
    [|unfold cmdLook; by rewrite HpL].
  destruct (has scene player Container) eqn:HpC;
    [|unfold cmdLook; by rewrite HpL, HpC].
  pose proof HpL as [location Hloc]%has_true. rewrite Hloc. simpl.
  destruct (has scene location Name && has scene location Description &&
            has scene location Container && has scene location Map) eqn:Hroom.
  - apply andb_true_iff in Hroom as [[[HN HD]%andb_true_iff HC]%andb_true_iff HM].
    by eapply cmdLook_returns.
  - unfold cmdLook. rewrite HpL, HpC. simpl.
    rewrite (component_get _ _ _ _ Hloc). simpl. by rewrite Hroom.
Qed.

(** ** listjoin *)

Lemma removelast_snoc {A : Type} (l : list A) (x : A) : removelast (l ++ [x]) = l.
Proof. apply removelast_last. Qed.

(** X16. [listjoin] of no item is the empty text, of one item the item, and
    of two or more the items but the last joined by commas, then the
    connector between spaces, then the last item. *)
Theorem listjoin_last (init : list string) (x connector : string) :
  listjoin [] connector = "" /\
  listjoin [x] connector = x /\
  (init ≠ [] ->
   listjoin (init ++ [x]) connector =
     join ", " init +:+ " " +:+ connector +:+ " " +:+ x).
Proof.
  split; [done|]. split; [done|]. intros Hinit.
  destruct init as [|a init]; [done|]. unfold listjoin.
  change ((a :: init) ++ [x]) with (a :: (init ++ [x])).
  destruct (init ++ [x]) as [|b rest] eqn:Heq.
  { by destruct init. }
  rewrite <- Heq.
  change (a :: (init ++ [x])) with ((a :: init) ++ [x]).
  by rewrite removelast_snoc, last_last.
Qed.

Lemma listjoin_last_witness :
  listjoin (["a book"; "a box"] ++ ["a marble"]) "and" =
    join ", " ["a book"; "a box"] +:+ " " +:+ "and" +:+ " " +:+ "a marble".
Proof.
  apply (proj2 (proj2 (listjoin_last ["a book"; "a box"] "a marble" "and"))).
  discriminate.
Defined.

(** ** Appending texts *)

Lemma str_app_cons (x : ascii) (a b : string) :
  String x a +:+ b = String x (a +:+ b).
Proof. reflexivity. Qed.

Lemma str_app_nil_l (a : string) : "" +:+ a = a.
Proof. reflexivity. Qed.

Lemma str_app_assoc (a b c : string) : (a +:+ b) +:+ c = a +:+ (b +:+ c).
Proof.
  induction a as [|x a IH]; [done|]. rewrite !str_app_cons. by rewrite IH.
Qed.

Lemma str_app_nil_r (a : string) : a +:+ "" = a.
Proof. induction a as [|x a IH]; [done|]. rewrite str_app_cons. by rewrite IH. Qed.

(** ** take, then inventory *)

Lemma mapR_app {A B : Type} (f : A -> result B) (l1 l2 : list A) ys1 ys2 :
  mapR f l1 = Ok ys1 -> mapR f l2 = Ok ys2 ->
  mapR f (l1 ++ l2) = Ok (ys1 ++ ys2).
Proof.
  revert ys1. induction l1 as [|x l1 IH]; intros ys1; simpl.
  - by intros [= <-].
  - intros (y & Hy & (ys & Hys & [= <-])%bind_Ok)%bind_Ok H2.
    rewrite Hy. simpl. rewrite (IH _ Hys H2). done.
Qed.

Lemma taken_resolved_named scene player args thing :
  take_resolves scene player args thing ->
  exists n, component Name scene thing = Some n.
Proof.
  intros (location & here & inventory & _ & _ & _ & _ & Hcase).
  destruct Hcase as [[_ Hfind]|(_ & ? & ? & ? & ? & _ & _ & _ & Hfind)];
    apply findByName_Some in Hfind as (_ & _ & _ & (n & Hn & _) & _);
    by exists n.
Qed.

(** [Name.get] without [definite] puts the article of the name before it. *)
Lemma Name_get_indefinite (n : NameT) : Name_get n false = with_article n.
Proof.
  unfold Name_get, with_article. destruct (article n) as [a|]; [|done].
  case_decide; [done|]. by rewrite str_app_assoc.
Qed.

(** X17. When the take command has moved the thing it resolved, the thing
    has the actor as its Location, and [inventory] in the scene it leaves
    returns a listing whose last line is two spaces and the thing's name,
    with its article and a space before it when it has one. *)
Theorem cmdTake_then_inventory (scene : Scene) (player : eid)
    (args : list string) (thing : eid) (text : string) (scene' : Scene) :
  take_resolves scene player args thing ->
  cmdTake scene player args = Ok (text, scene') ->
  scene' ≠ scene ->
  exists n listing,
    text = "Taken." /\
    component Name scene thing = Some n /\
    component Location scene' thing = Some player /\
    cmdInventory scene' player [] =
      Ok (listing +:+ nl +:+ "  " +:+ with_article n, scene').
Proof.
  intros Hres H Hne.
  destruct (taken_resolved_named _ _ _ _ Hres) as [n Hn].
  rewrite (cmdTake_resolved _ _ _ _ Hres) in H.
  case_bool_decide as Hl; [by injection H as _ <-|].
  destruct (has scene thing Environment); [by injection H as _ <-|].
  apply bind_Ok in H as (s1 & Hmove & [= <- <-]).
  assert (Hname : forall x, component Name s1 x = component Name scene x).
  { intros x. by apply (move_other Name _ _ _ _ x Hmove). }
  assert (Hinv : exists T, component Container s1 player = Some (T ++ [thing])).
  { rewrite (move_Container _ _ _ _ player Hmove), decide_True by done.
    destruct (inside_move_entity _ _ _ _ Hmove) as (members & Hm & _).
    rewrite (move_Container _ _ _ _ player Hmove), decide_True in Hm by done.
    destruct (taken_off scene thing player) as [T|]; [|done]. by exists T. }
  destruct Hinv as [T HT].
  destruct (displaynames_returns s1 (List.filter (fun e => has s1 e Name) T))
    as [earlier Hearlier]; [apply Forall_filter|].
  assert (Hthing : has s1 thing Name = true).
  { apply has_true. rewrite Hname, Hn. by eexists. }
  assert (Hnames : displaynames s1 (List.filter (fun e => has s1 e Name) (T ++ [thing]))
                   = Ok (earlier ++ [Name_get n false])).
  { rewrite List.filter_app. simpl. rewrite Hthing.
    apply mapR_app; [done|]. simpl.
    rewrite (component_get Name s1 thing n) by (by rewrite Hname). done. }
  exists n.
  exists (foldl (fun msg name => msg +:+ nl +:+ "  " +:+ name)
                "You carry the following things:" earlier).
  split; [done|]. split; [done|].
  split; [by rewrite (move_Location _ _ _ _ thing Hmove), decide_True|].
  unfold cmdInventory. rewrite (component_has _ _ _ _ HT). simpl.
  rewrite (component_get _ _ _ _ HT). simpl. rewrite Hnames. simpl.
  destruct (earlier ++ [Name_get n false]) as [|first others] eqn:Heq.
  { by destruct earlier. }
  rewrite <- Heq. rewrite foldl_app. simpl. by rewrite Name_get_indefinite.
Qed.

Lemma cmdTake_then_inventory_witness :
  component Location book_taken book = Some player /\
  exists listing,
    cmdInventory book_taken player [] =
      Ok (listing +:+ nl +:+ "  a book", book_taken).
Proof.
  destruct (cmdTake_then_inventory world player ["book"] book "Taken." book_taken)
    as (n & listing & _ & Hn & Hl & Hinv).
  - exists livingroom, [0; 1; 2; 3; 7; 8; 9; 11], [].
    split; [discriminate|]. repeat (split; [reflexivity|]).
    left. split; reflexivity.
  - vm_compute. reflexivity.
  - vm_compute. discriminate.
  - split; [exact Hl|]. exists listing.
    assert (n = mkName "book" (Some "a")) as ->.
    { vm_compute in Hn. by injection Hn as <-. }
    exact Hinv.
Defined.

(** ** Whitespace in the line *)

Lemma spaceless_snoc tok c :
  spaceless tok = true -> is_space c = false ->
  spaceless (tok +:+ String c "") = true.
Proof.
  intros Htok Hc. induction tok as [|x tok IH].
  - rewrite str_app_nil_l. simpl. by rewrite Hc.
  - rewrite str_app_cons. simpl in *.
    apply andb_true_iff in Htok as [Hx Htok]. rewrite Hx. simpl. by apply IH.
Qed.

(** The pieces of [split] are tokens. *)
Lemma split_ws_go_tokens s tok :
  spaceless tok = true -> Forall token (split_ws_go s tok).
Proof.
  revert tok. induction s as [|c s IH]; intros tok Htok; simpl.
  - case_decide; [constructor|]. constructor; [done|constructor].
  - destruct (is_space c) eqn:Hc.
    + case_decide; [by apply IH|]. constructor; [done|by apply IH].
    + apply IH. by apply spaceless_snoc.
Qed.

Lemma split_ws_go_skip t rest acc :
  spaceless t = true ->
  split_ws_go (t +:+ rest) acc = split_ws_go rest (acc +:+ t).
Proof.
  revert acc. induction t as [|c t IH]; intros acc Ht.
  - by rewrite str_app_nil_l, str_app_nil_r.
  - rewrite str_app_cons. simpl in *.
    apply andb_true_iff in Ht as [Hc%negb_true_iff Ht]. rewrite Hc.
    rewrite (IH _ Ht), str_app_assoc. by rewrite str_app_cons, str_app_nil_l.
Qed.

(** Tokens joined by single spaces split into the same tokens. *)
Lemma split_join toks : Forall token toks -> split (join " " toks) = toks.
Proof.
  unfold split, join. induction 1 as [|t toks [Hne Ht] Htoks IH]; [done|].
  simpl. destruct toks as [|t' toks'].
  - rewrite <- (str_app_nil_r t) at 1. rewrite (split_ws_go_skip _ _ _ Ht).
    rewrite str_app_nil_l. simpl. by rewrite decide_False.
  - rewrite (split_ws_go_skip _ _ _ Ht), str_app_nil_l.
    rewrite str_app_cons, str_app_nil_l.
    cbn [split_ws_go]. change (is_space " ") with true. cbn match.
    rewrite decide_False by done. by rewrite IH.
Qed.

Lemma is_space_lower c : is_space (lower_ascii c) = is_space c.
Proof.
  unfold lower_ascii. destruct (is_upper c) eqn:Hu; [|done].
  unfold is_space. rewrite nat_ascii_embedding.
  - unfold is_upper in Hu.
    apply andb_true_iff in Hu as [H1%Nat.leb_le H2%Nat.leb_le].
    repeat match goal with
           | |- context [?a <=? ?b] => destruct (Nat.leb_spec a b)
           end; simpl; try done; lia.
  - unfold is_upper in Hu.
    apply andb_true_iff in Hu as [_ H2%Nat.leb_le]. lia.
Qed.

Lemma lower_snoc tok c :
  lower (tok +:+ String c "") = lower tok +:+ String (lower_ascii c) "".
Proof.
  induction tok as [|x tok IH]; [done|].
  rewrite str_app_cons. simpl. rewrite str_app_cons. by rewrite IH.
Qed.

Lemma lower_empty tok : lower tok = "" <-> tok = "".
Proof. by destruct tok. Qed.

(** Lower-casing the line lower-cases its tokens. *)
Lemma split_ws_go_lower s tok :
  split_ws_go (lower s) (lower tok) = lower <$> split_ws_go s tok.
Proof.
  revert tok. induction s as [|c s IH]; intros tok; simpl.
  - destruct (decide (tok = "")) as [->|Hne]; simpl; [done|].
    rewrite decide_False; [done|]. by rewrite lower_empty.
  - rewrite is_space_lower. destruct (is_space c).
    + destruct (decide (tok = "")) as [->|Hne]; simpl.
      * apply (IH "").
      * rewrite decide_False by (by rewrite lower_empty).
        simpl. f_equal. apply (IH "").
    + rewrite <- lower_snoc. apply IH.
Qed.

Lemma split_lower s : split (lower s) = lower <$> split s.
Proof. apply (split_ws_go_lower s ""). Qed.

(** X18. Whitespace around and between the words of a line makes no
    difference: the line and its tokens joined by single spaces get the same
    answer and leave the same scene; the tokens the handlers receive are
    never empty and hold no whitespace. *)
Theorem dispatch_whitespace (scene : Scene) (eid : eid) (line : string) :
  dispatch scene eid (join " " (split line)) = dispatch scene eid line /\
  Forall token (split (lower line)).
Proof.
  split; [|by apply split_ws_go_tokens].
  unfold dispatch. rewrite !split_lower.
  rewrite split_join; [done|]. by apply split_ws_go_tokens.
Qed.

(** ** The clause words of take and drop *)

Lemma prefix_nil (s : string) : String.prefix "" s = true.
Proof. by destruct s. Qed.

Lemma prefix_cons (a b : ascii) (p s : string) :
  String.prefix (String a p) (String b s) =
    if decide (a = b) then String.prefix p s else false.
Proof. simpl. destruct (ascii_dec a b); case_decide; done. Qed.

(** Where a word followed by a space starts a text made of a token and a
    rest that is empty or starts with a space: only when the token is the
    word and the rest is not empty. *)
Lemma prefix_word (w t R : string) :
  spaceless w = true ->
  spaceless t = true ->
  R = "" \/ (exists R', R = String " " R') ->
  String.prefix (w +:+ " ") (t +:+ R) = true <-> t = w /\ R ≠ "".
Proof.
  intros Hw Ht HR. revert t Ht.
  induction w as [|x w IH]; intros t Ht.
  - rewrite str_app_nil_l. destruct t as [|c t].
    + rewrite str_app_nil_l. destruct HR as [->|[R' ->]]; [by split; [|intros [_ ?]]|].
      rewrite prefix_cons, decide_True by done. rewrite prefix_nil.
      split; [done|]. done.
    + rewrite str_app_cons, prefix_cons. simpl in Ht.
      apply andb_true_iff in Ht as [Hc%negb_true_iff _].
      rewrite decide_False; [by split; [|intros [? _]]|].
      intros <-. by vm_compute in Hc.
  - simpl in Hw. apply andb_true_iff in Hw as [Hx%negb_true_iff Hw].
    rewrite str_app_cons. destruct t as [|c t].
    + rewrite str_app_nil_l. destruct HR as [->|[R' ->]]; [by split; [|intros [? _]]|].
      rewrite prefix_cons, decide_False; [by split; [|intros [? _]]|].
      intros ->. by vm_compute in Hx.
    + rewrite str_app_cons, prefix_cons. simpl in Ht.
      apply andb_true_iff in Ht as [_ Ht].
      destruct (decide (x = c)) as [->|Hxc].
      * rewrite (IH Hw t Ht). split; [by intros [-> ?]|].
        by intros [[= ->] ?].
      * split; [done|]. intros [[= ? ?] _]. congruence.
Qed.

Lemma split_on_go_step sep c s cur :
  split_on_go sep (String c s) 0 cur =
    if String.prefix sep (String c s)
    then cur :: split_on_go sep s (String.length sep - 1) ""
    else split_on_go sep s 0 (cur +:+ String c "").
Proof. reflexivity. Qed.

Lemma split_on_go_drop sep pre s cur :
  split_on_go sep (pre +:+ s) (String.length pre) cur = split_on_go sep s 0 cur.
Proof.
  induction pre as [|c pre IH]; [by destruct s|].
  rewrite str_app_cons. simpl. exact IH.
Qed.

Lemma join_cons (t : string) (ts : list string) :
  join " " (t :: ts) = t +:+ joined_tail ts.
Proof.
  unfold join, joined_tail. destruct ts; simpl; [by rewrite str_app_nil_r|done].
Qed.

Lemma joined_tail_cases ts :
  joined_tail ts = "" \/ exists R', joined_tail ts = String " " R'.
Proof. destruct ts; [by left|]. right. by eexists. Qed.

Lemma joined_tail_empty ts : joined_tail ts = "" <-> ts = [].
Proof. by destruct ts. Qed.

(** Reading a token: no separator starts inside it. *)
Lemma scan_token w u R cur :
  spaceless u = true ->
  split_on_go (clause w) (u +:+ R) 0 cur =
    split_on_go (clause w) R 0 (cur +:+ u).
Proof.
  revert cur. induction u as [|c u IH]; intros cur Hu.
  - by rewrite str_app_nil_l, str_app_nil_r.
  - simpl in Hu. apply andb_true_iff in Hu as [Hc%negb_true_iff Hu].
    rewrite str_app_cons, split_on_go_step. unfold clause at 1.
    rewrite prefix_cons, decide_False.
    + rewrite (IH _ Hu), str_app_assoc. by rewrite str_app_cons, str_app_nil_l.
    + intros <-. by vm_compute in Hc.
Qed.

(** Reading the space before a token: a separator starts there exactly when
    the token is the clause word and more tokens follow. *)
Lemma scan_space w t ts cur :
  spaceless w = true ->
  spaceless t = true ->
  split_on_go (clause w) (String " " (t +:+ joined_tail ts)) 0 cur =
    if decide (t = w /\ ts ≠ [])
    then cur :: split_on_go (clause w) (join " " ts) 0 ""
    else split_on_go (clause w) (t +:+ joined_tail ts) 0 (cur +:+ " ").
Proof.
  intros Hw Ht. rewrite split_on_go_step. unfold clause at 1.
  rewrite prefix_cons, decide_True by done.
  pose proof (prefix_word w t (joined_tail ts) Hw Ht (joined_tail_cases ts)) as Hpre.
  rewrite joined_tail_empty in Hpre.
  destruct (String.prefix (w +:+ " ") (t +:+ joined_tail ts)) eqn:Hp.
  - rewrite decide_True by (by apply Hpre).
    destruct (proj1 Hpre eq_refl) as [-> Hts]. f_equal.
    destruct ts as [|t' ts']; [done|]. unfold joined_tail.
    rewrite <- str_app_assoc.
    assert (Hlen : String.length (clause w) - 1 = String.length (w +:+ " ")).
    { unfold clause. simpl. lia. }
    rewrite Hlen. apply split_on_go_drop.
  - rewrite decide_False; [done|].
    intros H. apply Hpre in H. congruence.
Qed.

Lemma joined_tail_cons (t : string) (ts : list string) :
  joined_tail (t :: ts) = " " +:+ t +:+ joined_tail ts.
Proof. unfold joined_tail at 1. by rewrite join_cons. Qed.

Lemma split_on_go_nonempty sep s skip cur : split_on_go sep s skip cur ≠ [].
Proof.
  revert skip cur. induction s as [|c s IH]; intros skip cur; [done|].
  destruct skip as [|k]; [|apply (IH k cur)].
  rewrite split_on_go_step.
  destruct (String.prefix sep (String c s)); [done|apply IH].
Qed.

(** Tokens that hold the clause word at most as the first or the last token
    are not cut. *)
Lemma split_on_go_plain w t ts cur :
  spaceless w = true ->
  spaceless t = true ->
  Forall token ts ->
  w ∉ removelast ts ->
  split_on_go (clause w) (t +:+ joined_tail ts) 0 cur =
    [cur +:+ t +:+ joined_tail ts].
Proof.
  intros Hw Ht Hts. revert t cur Ht.
  induction Hts as [|t' ts [_ Ht'] Hts IH]; intros t cur Ht Hnot.
  - rewrite (scan_token _ _ _ _ Ht). simpl. by rewrite str_app_nil_r.
  - rewrite (scan_token _ _ _ _ Ht). unfold joined_tail at 1.
    rewrite str_app_cons, str_app_nil_l, join_cons.
    rewrite (scan_space _ _ _ _ Hw Ht').
    assert (Hno : ~ (t' = w /\ ts ≠ []) /\ w ∉ removelast ts).
    { destruct ts as [|t'' ts']; [split; [by intros [_ ?]|apply not_elem_of_nil]|].
      change (removelast (t' :: t'' :: ts')) with (t' :: removelast (t'' :: ts')) in Hnot.
      apply not_elem_of_cons in Hnot as [Hne Hnot]. split; [|done].
      intros [? _]. congruence. }
    destruct Hno as [Hno Hnot']. rewrite decide_False by done.
    rewrite (IH _ _ Ht' Hnot'). f_equal.
    by rewrite joined_tail_cons, !str_app_assoc.
Qed.

(** Tokens that hold the clause word somewhere between the second and the
    last but one are cut at least once. *)
Lemma split_on_go_cut w t ts cur :
  spaceless w = true ->
  spaceless t = true ->
  Forall token ts ->
  w ∈ removelast ts ->
  exists x y rest,
    split_on_go (clause w) (t +:+ joined_tail ts) 0 cur = x :: y :: rest.
Proof.
  intros Hw Ht Hts. revert t cur Ht.
  induction Hts as [|t' ts [_ Ht'] Hts IH]; intros t cur Ht Hin.
  - by apply elem_of_nil in Hin.
  - rewrite (scan_token _ _ _ _ Ht). unfold joined_tail at 1.
    rewrite str_app_cons, str_app_nil_l, join_cons.
    rewrite (scan_space _ _ _ _ Hw Ht').
    destruct (decide (t' = w /\ ts ≠ [])) as [_|Hno].
    + destruct (split_on_go (clause w) (join " " ts) 0 "") as [|y rest] eqn:Hgo.
      * by apply split_on_go_nonempty in Hgo.
      * by eexists _, y, rest.
    + destruct ts as [|t'' ts']; [by apply elem_of_nil in Hin|].
      change (removelast (t' :: t'' :: ts')) with (t' :: removelast (t'' :: ts')) in Hin.
      apply elem_of_cons in Hin as [->|Hin]; [exfalso; by apply Hno|].
      by apply IH.
Qed.

(** The first cut: the clause word after the tokens [a :: A], not among [A]. *)
Lemma split_on_go_first w a A B cur :
  spaceless w = true ->
  spaceless a = true ->
  Forall token A -> w ∉ A ->
  B ≠ [] ->
  split_on_go (clause w) (a +:+ joined_tail (A ++ w :: B)) 0 cur =
    (cur +:+ a +:+ joined_tail A) :: split_on_go (clause w) (join " " B) 0 "".
Proof.
  intros Hw Ha HA. revert a cur Ha.
  induction HA as [|a' A [_ Ha'] HA IH]; intros a cur Ha HwA HB.
  - change ([] ++ w :: B) with (w :: B).
    rewrite (scan_token _ _ _ _ Ha). unfold joined_tail at 1.
    rewrite str_app_cons, str_app_nil_l, join_cons.
    rewrite (scan_space _ _ _ _ Hw Hw), decide_True by done.
    simpl. by rewrite str_app_nil_r.
  - apply not_elem_of_cons in HwA as [Hne HwA].
    change ((a' :: A) ++ w :: B) with (a' :: (A ++ w :: B)).
    rewrite (scan_token _ _ _ _ Ha). unfold joined_tail at 1.
    rewrite str_app_cons, str_app_nil_l, join_cons.
    rewrite (scan_space _ _ _ _ Hw Ha').
    rewrite decide_False by (intros [? _]; congruence).
    rewrite (IH _ _ Ha' HwA HB). f_equal.
    by rewrite joined_tail_cons, !str_app_assoc.
Qed.

Lemma contains_cons sep c s :
  contains sep (String c s) = String.prefix sep (String c s) || contains sep s.
Proof. reflexivity. Qed.

Lemma contains_false_one sep s cur :
  contains sep s = false -> split_on_go sep s 0 cur = [cur +:+ s].
Proof.
  revert cur. induction s as [|c s IH]; intros cur H.
  - simpl. by rewrite str_app_nil_r.
  - rewrite contains_cons in H. apply orb_false_iff in H as [Hp Hc].
    rewrite split_on_go_step, Hp.
    rewrite (IH _ Hc), str_app_assoc. by rewrite str_app_cons, str_app_nil_l.
Qed.

Lemma contains_true_two sep s cur :
  sep ≠ "" -> contains sep s = true ->
  exists x y rest, split_on_go sep s 0 cur = x :: y :: rest.
Proof.
  intros Hsep. revert cur. induction s as [|c s IH]; intros cur H.
  - destruct sep; [done|]. simpl in H. done.
  - rewrite contains_cons in H. rewrite split_on_go_step.
    destruct (String.prefix sep (String c s)) eqn:Hp.
    + destruct (split_on_go sep s (String.length sep - 1) "") as [|y rest] eqn:Hgo;
        [by apply split_on_go_nonempty in Hgo|].
      by eexists _, y, rest.
    + by apply IH.
Qed.

Lemma clause_nonempty w : clause w ≠ "".
Proof. done. Qed.

(** No clause: the word is at most the first or the last token. *)
Lemma parse_plain w args :
  spaceless w = true ->
  Forall token args ->
  w ∉ removelast (List.tl args) ->
  contains (clause w) (join " " args) = false.
Proof.
  intros Hw Hargs Hnot. destruct args as [|t ts]; [done|].
  apply Forall_cons in Hargs as [[_ Ht] Hts]. simpl in Hnot.
  destruct (contains (clause w) (join " " (t :: ts))) eqn:Hc; [|done].
  destruct (contains_true_two _ _ "" (clause_nonempty w) Hc) as (x & y & rest & Hgo).
  rewrite join_cons, (split_on_go_plain _ _ _ _ Hw Ht Hts Hnot) in Hgo. done.
Qed.

(** One clause: the word stands, for the first time after the first token,
    between [A] and [B], and within [B] at most as the first or the last
    token. *)
Lemma parse_clause w A B :
  spaceless w = true ->
  Forall token A -> A ≠ [] -> w ∉ List.tl A ->
  Forall token B -> B ≠ [] -> w ∉ removelast (List.tl B) ->
  contains (clause w) (join " " (A ++ w :: B)) = true /\
  split_on (clause w) (join " " (A ++ w :: B)) = [join " " A; join " " B].
Proof.
  intros Hw HA HAne HwA HB HBne HwB.
  destruct A as [|a A']; [done|]. destruct B as [|b B']; [done|].
  apply Forall_cons in HA as [[_ Ha] HA]. apply Forall_cons in HB as [[_ Hb] HB].
  simpl in HwA, HwB.
  assert (Hsplit : split_on (clause w) (join " " ((a :: A') ++ w :: b :: B'))
                   = [join " " (a :: A'); join " " (b :: B')]).
  { unfold split_on. change ((a :: A') ++ w :: b :: B') with (a :: (A' ++ w :: b :: B')).
    rewrite join_cons, (split_on_go_first _ _ _ _ _ Hw Ha HA HwA) by done.
    rewrite (join_cons b B'), (split_on_go_plain _ _ _ _ Hw Hb HB HwB).
    by rewrite !str_app_nil_l, <- !join_cons. }
  split; [|done].
  destruct (contains (clause w) (join " " ((a :: A') ++ w :: b :: B'))) eqn:Hc; [done|].
  unfold split_on in Hsplit. rewrite (contains_false_one _ _ _ Hc) in Hsplit. done.
Qed.

(** More than one clause: the word stands between [A] and [B] and again
    inside [B]. *)
Lemma parse_many w A B :
  spaceless w = true ->
  Forall token A -> A ≠ [] -> w ∉ List.tl A ->
  Forall token B -> w ∈ removelast (List.tl B) ->
  contains (clause w) (join " " (A ++ w :: B)) = true /\
  exists x y z rest,
    split_on (clause w) (join " " (A ++ w :: B)) = x :: y :: z :: rest.
Proof.
  intros Hw HA HAne HwA HB HwB.
  destruct A as [|a A']; [done|].
  destruct B as [|b B']; [by apply elem_of_nil in HwB|].
  apply Forall_cons in HA as [[_ Ha] HA]. apply Forall_cons in HB as [[_ Hb] HB].
  simpl in HwA, HwB.
  destruct (split_on_go_cut w b B' "" Hw Hb HB HwB) as (y & z & rest & Hcut).
  assert (Hsplit : split_on (clause w) (join " " ((a :: A') ++ w :: b :: B'))
                   = join " " (a :: A') :: y :: z :: rest).
  { unfold split_on. change ((a :: A') ++ w :: b :: B') with (a :: (A' ++ w :: b :: B')).
    rewrite join_cons, (split_on_go_first _ _ _ _ _ Hw Ha HA HwA) by done.
    rewrite (join_cons b B'), Hcut. by rewrite !str_app_nil_l, <- !join_cons. }
  split; [|by eexists _, _, _, _].
  destruct (contains (clause w) (join " " ((a :: A') ++ w :: b :: B'))) eqn:Hc; [done|].
  unfold split_on in Hsplit. rewrite (contains_false_one _ _ _ Hc) in Hsplit. done.
Qed.

(** X19. How [take] reads its arguments, given as tokens. When [from] is at
    most the first or the last word there is no clause and the whole text
    names the thing. When [from] stands after the first word, with words
    after it that hold [from] at most as their first or last, the words
    before it name the thing and the words after it the container, looked up
    among the contents of the location and the inventory. When [from] stands
    in the middle a second time the command raises [ValueError]. *)
Theorem cmdTake_parse (scene : Scene) (player location : eid)
    (here inventory : list eid) (args : list string) :
  component Location scene player = Some location ->
  component Container scene location = Some here ->
  component Container scene player = Some inventory ->
  Forall token args ->
  args ≠ [] ->
  ("from" ∉ removelast (List.tl args) ->
   cmdTake scene player args =
     cmdTake_thing scene player (join " " args) (here ++ inventory)) /\
  (forall A B,
     args = A ++ "from" :: B -> A ≠ [] -> "from" ∉ List.tl A ->
     B ≠ [] -> "from" ∉ removelast (List.tl B) ->
     cmdTake scene player args =
       match findByName scene (join " " B) (here ++ inventory) with
       | None => Ok ("There is no such container.", scene)
       | Some c =>
           match component Container scene c with
           | None => Ok ("You cannot do that.", scene)
           | Some members => cmdTake_thing scene player (join " " A) members
           end
       end) /\
  (forall A B,
     args = A ++ "from" :: B -> A ≠ [] -> "from" ∉ List.tl A ->
     "from" ∈ removelast (List.tl B) ->
     cmdTake scene player args = Raise ValueError).
Proof.
  intros Hloc Hhere Hinv Hargs Hne.
  assert (Hstart : forall k : string -> response,
            k (join " " args) =
            (let name := join " " args in
             if contains (clause "from") name
             then
               match split_on (clause "from") name with
               | [name; containername] =>
                   match findByName scene containername (here ++ inventory) with
                   | None => Ok ("There is no such container.", scene)
                   | Some container =>
                       if negb (has scene container Container)
                       then Ok ("You cannot do that.", scene)
                       else
                         container ← get scene container Container;
                         cmdTake_thing scene player name container
                   end
               | _ => Raise ValueError
               end
             else cmdTake_thing scene player name (here ++ inventory)) ->
            cmdTake scene player args = k (join " " args)).
  { intros k ->. destruct args as [|a args]; [done|]. unfold cmdTake.
    rewrite (component_has _ _ _ _ Hloc), (component_has _ _ _ _ Hinv). simpl.
    rewrite (component_get _ _ _ _ Hloc). simpl.
    rewrite (component_has _ _ _ _ Hhere). simpl.
    rewrite (component_get _ _ _ _ Hhere). simpl.
    rewrite (component_get _ _ _ _ Hinv). simpl. done. }
  split; [|split].
  - intros Hplain.
    apply (Hstart (fun name => cmdTake_thing scene player name (here ++ inventory))).
    simpl. by rewrite (parse_plain "from" args eq_refl Hargs Hplain).
  - intros A B -> HA HwA HB HwB.
    apply Forall_app in Hargs as [HtA [_ HtB]%Forall_cons].
    destruct (parse_clause "from" A B eq_refl HtA HA HwA HtB HB HwB) as [Hc Hs].
    apply (Hstart (fun _ =>
             match findByName scene (join " " B) (here ++ inventory) with
             | None => Ok ("There is no such container.", scene)
             | Some c =>
                 match component Container scene c with
                 | None => Ok ("You cannot do that.", scene)
                 | Some members => cmdTake_thing scene player (join " " A) members
                 end
             end)).
    simpl. rewrite Hc, Hs.
    destruct (findByName scene (join " " B) (here ++ inventory)) as [c|]; [|done].
    unfold has, get. by destruct (component Container scene c).
  - intros A B -> HA HwA HwB.
    apply Forall_app in Hargs as [HtA [_ HtB]%Forall_cons].
    destruct (parse_many "from" A B eq_refl HtA HA HwA HtB HwB)
      as (Hc & x & y & z & rest & Hs).
    apply (Hstart (fun _ => Raise ValueError)).
    simpl. by rewrite Hc, Hs.
Qed.

Lemma cmdTake_parse_witness :
  cmdTake world player ["die"; "from"; "box"] =
    match findByName world (join " " ["box"]) ([0; 1; 2; 3; 7; 8; 9; 11] ++ []) with
    | None => Ok ("There is no such container.", world)
    | Some c =>
        match component Container world c with
        | None => Ok ("You cannot do that.", world)
        | Some members => cmdTake_thing world player (join " " ["die"]) members
        end
    end.
Proof.
  apply (proj1 (proj2 (cmdTake_parse world player livingroom
                         [0; 1; 2; 3; 7; 8; 9; 11] [] ["die"; "from"; "box"]
                         eq_refl eq_refl eq_refl
                         ltac:(repeat constructor; done) ltac:(discriminate)))
           ["die"] ["box"]);
    [reflexivity | discriminate | apply not_elem_of_nil | discriminate
    | apply not_elem_of_nil].
Defined.

(** X20. How [drop] reads its arguments, given as tokens. When [into] is at
    most the first or the last word there is no clause: the whole text names
    the thing and the container is the actor's location. When [into] stands
    after the first word, with words after it that hold [into] at most as
    their first or last, the words after it name the container, looked up in
    the inventory and then the contents of the location, and the words
    before it the thing. When [into] stands in the middle a second time the
    command raises [ValueError]. *)
Theorem cmdDrop_parse (scene : Scene) (player location : eid)
    (here inventory : list eid) (args : list string) :
  component Location scene player = Some location ->
  component Container scene location = Some here ->
  component Container scene player = Some inventory ->
  Forall token args ->
  args ≠ [] ->
  ("into" ∉ removelast (List.tl args) ->
   cmdDrop scene player args =
     cmdDrop_thing scene player location (join " " args) location) /\
  (forall A B,
     args = A ++ "into" :: B -> A ≠ [] -> "into" ∉ List.tl A ->
     B ≠ [] -> "into" ∉ removelast (List.tl B) ->
     cmdDrop scene player args =
       match findByName scene (join " " B) (inventory ++ here) with
       | None => Ok ("There is no such container.", scene)
       | Some c =>
           if has scene c Container
           then cmdDrop_thing scene player location (join " " A) c
           else Ok ("You cannot do that.", scene)
       end) /\
  (forall A B,
     args = A ++ "into" :: B -> A ≠ [] -> "into" ∉ List.tl A ->
     "into" ∈ removelast (List.tl B) ->
     cmdDrop scene player args = Raise ValueError).
Proof.
  intros Hloc Hhere Hinv Hargs Hne.
  assert (Hstart : forall k : string -> response,
            k (join " " args) =
            (let name := join " " args in
             if contains (clause "into") name
             then
               match split_on (clause "into") name with
               | [name; containername] =>
                   match findByName scene containername (inventory ++ here) with
                   | None => Ok ("There is no such container.", scene)
                   | Some container =>
                       if negb (has scene container Container)
                       then Ok ("You cannot do that.", scene)
                       else cmdDrop_thing scene player location name container
                   end
               | _ => Raise ValueError
               end
             else cmdDrop_thing scene player location name location) ->
            cmdDrop scene player args = k (join " " args)).
  { intros k ->. destruct args as [|a args]; [done|]. unfold cmdDrop.
    cbv zeta. generalize (join " " (a :: args)). intros line.
    rewrite (component_has _ _ _ _ Hloc), (component_has _ _ _ _ Hinv). simpl.
    rewrite (component_get _ _ _ _ Hloc). simpl.
    rewrite (component_has _ _ _ _ Hhere). simpl.
    change " into " with (clause "into").
    destruct (contains (clause "into") line); [|done].
    destruct (split_on (clause "into") line) as [|? [|? [|? ?]]]; try done.
    rewrite (component_get _ _ _ _ Hinv). simpl.
    rewrite (component_get _ _ _ _ Hhere). simpl. done. }
  split; [|split].
  - intros Hplain.
    apply (Hstart (fun name => cmdDrop_thing scene player location name location)).
    simpl. by rewrite (parse_plain "into" args eq_refl Hargs Hplain).
  - intros A B -> HA HwA HB HwB.
    apply Forall_app in Hargs as [HtA [_ HtB]%Forall_cons].
    destruct (parse_clause "into" A B eq_refl HtA HA HwA HtB HB HwB) as [Hc Hs].
    apply (Hstart (fun _ =>
             match findByName scene (join " " B) (inventory ++ here) with
             | None => Ok ("There is no such container.", scene)
             | Some c =>
                 if has scene c Container
                 then cmdDrop_thing scene player location (join " " A) c
                 else Ok ("You cannot do that.", scene)
             end)).
    simpl. rewrite Hc, Hs.
    destruct (findByName scene (join " " B) (inventory ++ here)) as [c|]; [|done].
    by destruct (has scene c Container).
  - intros A B -> HA HwA HwB.
    apply Forall_app in Hargs as [HtA [_ HtB]%Forall_cons].
    destruct (parse_many "into" A B eq_refl HtA HA HwA HtB HwB)
      as (Hc & x & y & z & rest & Hs).
    apply (Hstart (fun _ => Raise ValueError)).
    simpl. by rewrite Hc, Hs.
Qed.

Lemma cmdDrop_parse_witness :
  cmdDrop book_taken player ["book"; "into"; "box"] =
    match findByName book_taken (join " " ["box"]) ([8] ++ [0; 1; 2; 3; 7; 9; 11]) with
    | None => Ok ("There is no such container.", book_taken)
    | Some c =>
        if has book_taken c Container
        then cmdDrop_thing book_taken player livingroom (join " " ["book"]) c
        else Ok ("You cannot do that.", book_taken)
    end.
Proof.
  apply (proj1 (proj2 (cmdDrop_parse book_taken player livingroom
                         [0; 1; 2; 3; 7; 9; 11] [8] ["book"; "into"; "box"]
                         eq_refl eq_refl eq_refl
                         ltac:(repeat constructor; done) ltac:(discriminate)))
           ["book"] ["box"]);
    [reflexivity | discriminate | apply not_elem_of_nil | discriminate
    | apply not_elem_of_nil].
Defined.

(** ** go: what a returned call has done *)

(** X21. Every call of [go] that returns is one of three: without argument,
    the error text and the scene as before; with a direction that is no key
    of the Map of the actor's location, "You cannot go this way." and the
    scene as before; or the actor moved by [move] to the entity the Map gives
    for the direction, now its Location and listing it, and the answer is
    what [look] without arguments returns in the scene left. *)
Theorem cmdGo_outcome (scene : Scene) (player : eid) (args : list string)
    (text : string) (scene' : Scene) :
  cmdGo scene player args = Ok (text, scene') ->
  (args = [] /\ text = "You have to name a direction to go towards." /\
   scene' = scene) \/
  (exists location map,
     args ≠ [] /\
     component Location scene player = Some location /\
     component Map scene location = Some map /\
     ((Dict.lookup (expand (join " " args)) map = None /\
       text = "You cannot go this way." /\ scene' = scene) \/
      (exists destination,
         Dict.lookup (expand (join " " args)) map = Some destination /\
         move scene player destination = Ok scene' /\
         component Location scene' player = Some destination /\
         inside scene' player destination /\
         cmdLook scene' player [] = Ok (text, scene')))).
Proof.
  intros H. destruct args as [|a args].
  { left. by injection H as <- <-. }
  right. unfold cmdGo in H. revert H.
  generalize (join " " (a :: args)). intros line H.
  apply bind_Ok in H as ([] & _ & H).
  apply bind_Ok in H as (location & Hloc%get_Ok & H).
  apply bind_Ok in H as ([] & _ & H).
  apply bind_Ok in H as (map & Hmap%get_Ok & H).
  apply bind_Ok in H as (direction & Hdir & H).
  assert (direction = expand line) as ->.
  { unfold expand, Dict.mem, Dict.get in *.
    destruct (Dict.lookup line expansion); by injection Hdir as <-. }
  exists location, map. split; [done|]. split; [done|]. split; [done|].
  unfold Dict.mem, Dict.get in H.
  destruct (Dict.lookup (expand line) map) as [destination|]; simpl in H.
  - right. exists destination. split; [done|].
    apply bind_Ok in H as (s1 & Hmove & Hlook).
    pose proof (cmdLook_scene _ _ _ _ _ Hlook) as ->.
    split; [done|].
    split; [by rewrite (move_Location _ _ _ _ player Hmove), decide_True|].
    split; [by eapply inside_move_entity|done].
  - left. by injection H as <- <-.
Qed.

Lemma cmdGo_outcome_witness :
  exists text scene',
    cmdGo world player ["w"] = Ok (text, scene') /\
    component Location scene' player = Some garden.
Proof.
  destruct (cmdGo world player ["w"]) as [[text scene']|] eqn:H;
    [|vm_compute in H; discriminate H].
  exists text, scene'. split; [done|].
  destruct (cmdGo_outcome world player ["w"] text scene' H)
    as [[Hargs _]|(location & map & _ & Hloc & Hmap & Hcase)]; [done|].
  vm_compute in Hloc. injection Hloc as <-.
  vm_compute in Hmap. injection Hmap as <-.
  destruct Hcase as [[Hnone _]|(destination & Hd & _ & Hl & _)].
  - vm_compute in Hnone. discriminate Hnone.
  - vm_compute in Hd. injection Hd as <-. exact Hl.
Defined.

(** ** Which components an entity has, and where scenery is *)

(** In a consistent scene a command that changes the scene has moved an
    entity that had a Location. *)
Lemma effect_moved_located scene scene' :
  consistent scene -> effect scene scene' ->
  scene' = scene \/
  exists e c, move scene e c = Ok scene' /\ is_Some (component Location scene e).
Proof.
  intros Hc [->|(e & c & Hmove & He)]; [by left|]. right. exists e, c.
  split; [done|]. destruct He as [He|(Henv & x & Hx)]; [done|].
  destruct (component Location scene e) eqn:Hl; [by eexists|].
  rewrite (members_scenery _ Hc _ _ Hx Hl) in Henv. done.
Qed.

Lemma has_move_Container scene e c scene' x :
  move scene e c = Ok scene' ->
  has scene' x Container = has scene x Container.
Proof.
  intros Hmove. unfold has. rewrite (move_Container _ _ _ _ x Hmove).
  destruct (taken_off_cases _ _ _ _ Hmove)
    as [[_ H]|(l & old & old' & _ & Hold & _ & H)]; rewrite H.
  - case_decide; by destruct (component Container scene x).
  - destruct (decide (x = l)) as [->|Hxl].
    + rewrite Hold. by case_decide.
    + case_decide; by destruct (component Container scene x).
Qed.

(** What a step of the game keeps: which entities have a Location and a
    Container, and where the entities without Location are listed. *)
Lemma step_keeps scene scene' :
  consistent scene -> effect scene scene' ->
  forall x,
    has scene' x Location = has scene x Location /\
    has scene' x Container = has scene x Container /\
    (has scene x Location = false ->
     forall c, inside scene' x c <-> inside scene x c).
Proof.
  intros Hc Heff x.
  destruct (effect_moved_located _ _ Hc Heff) as [->|(e & c & Hmove & [l Hl])];
    [done|].
  split; [|split].
  - unfold has. rewrite (move_Location _ _ _ _ x Hmove).
    case_decide as Hx; [subst x; by rewrite Hl|done].
  - by eapply has_move_Container.
  - intros Hx c'. apply (inside_move_other _ _ _ _ _ _ Hmove).
    intros ->. apply has_false in Hx. congruence.
Qed.

Lemma reachable_keeps scene :
  reachable scene ->
  forall x,
    has scene x Location = has world x Location /\
    has scene x Container = has world x Container /\
    (has world x Location = false ->
     forall c, inside scene x c <-> inside world x c).
Proof.
  induction 1 as [|scene eid line text scene' Hreach IH _ Hstep]; [done|].
  intros x. destruct (IH x) as (IL & IC & Iin).
  apply reachable_consistent in Hreach.
  destruct (step_keeps _ _ Hreach (dispatch_effect _ _ _ _ _ Hstep) x)
    as (SL & SC & Sin).
  split; [congruence|]. split; [congruence|].
  intros Hx c. rewrite <- (Iin Hx c). apply Sin. congruence.
Qed.

(** X22. Play never gives or takes a Location or a Container: in every scene
    reached from the world of [main] by commands, an entity has a Location
    exactly when it had one at the start, and likewise a Container; so the
    player entity always has both, as [look], [take], [drop] and [read]
    assert. *)
Theorem reachable_presence (scene : Scene) :
  reachable scene ->
  (forall x, has scene x Location = has world x Location /\
             has scene x Container = has world x Container) /\
  has scene player Location = true /\
  has scene player Container = true.
Proof.
  intros Hreach. pose proof (reachable_keeps scene Hreach) as Hkeep.
  split; [intros x; destruct (Hkeep x) as (? & ? & _); by split|].
  destruct (Hkeep player) as (-> & -> & _). done.
Qed.

Lemma reachable_presence_witness :
  (forall x, has book_taken x Location = has world x Location /\
             has book_taken x Container = has world x Container) /\
  has book_taken player Location = true /\
  has book_taken player Container = true.
Proof. apply (reachable_presence book_taken book_taken_reachable). Defined.

(** X23. What has no Location never moves: in every scene reached from the
    world of [main] by commands, an entity that had no Location at the start
    (the scenery and the rooms) still has none and is a member of exactly the
    Containers it was a member of at the start. *)
Theorem reachable_scenery_fixed (scene : Scene) (x : eid) :
  reachable scene ->
  has world x Location = false ->
  component Location scene x = None /\
  forall c, inside scene x c <-> inside world x c.
Proof.
  intros Hreach Hx. destruct (reachable_keeps scene Hreach x) as (HL & _ & Hin).
  split; [apply has_false; congruence|]. by apply Hin.
Qed.

Lemma reachable_scenery_fixed_witness :
  component Location book_taken plant = None /\
  forall c, inside book_taken plant c <-> inside world plant c.
Proof.
  apply (reachable_scenery_fixed book_taken plant book_taken_reachable).
  reflexivity.
Defined.
